(** * oath.js: a minimal promise library, embedded and verified

    The development follows [src/lib/oath.js].

    - JavaScript values are a small tagged universe [val]; numbers are
      integers; the only objects with a [then] property are promises.
    - Promises live in a heap indexed by allocation order; a deferred is
      identified with the promise it wraps, which it never changes.
    - Every function expression of the source is a constructor of [val]
      (a defunctionalised closure) and [apply_function] gives its body.
    - The functions of the client are given by a table [client] of
      programs [prog]; a client acts on the library by calling function
      values only: it does not assign to the fields of a promise, and of
      the bound methods of a promise it holds [then] and [catch].
    - Calls of function values go through [call], which [call_fuel] ties
      into a recursion on fuel; one unit of fuel is one nested call. *)

From Stdlib Require Import ZArith String List Lia.
From stdpp Require Import base list.
Import ListNotations.
Open Scope string_scope.
Open Scope list_scope.

(** ** JavaScript values *)

(** A reference is the index of a promise in the heap. *)
Abbreviation ref := nat (only parsing).

(** Methods that [_.bindAll] turns into free-standing functions and that
    the documented instance surface exposes: [then] and [catch] of a
    promise, [resolve] and [reject] of a deferred. *)
Inductive method : Type := Mthen | Mcatch | Mresolve | Mreject.

(** The functions bound to module-level variables. *)
Inductive toplevel : Type := Fdefer | Fpromisify | Fresolved | Frejected.

Inductive val : Type :=
| VUndefined
| VNull
| VBool (b : bool)
| VNum (n : Z)
| VStr (s : string)
| VError (msg : string)                  (* new Error(msg) *)
| VObject (id : nat)                     (* an object literal {}, by identity *)
| VPromise (r : ref)                     (* new Promise(..) stored at r *)
| VDeferred (r : ref)                    (* new Deferred(p), p stored at r *)
| VBound (m : method) (r : ref)          (* a method bound to its object *)
| VFun (f : toplevel)
| VFailableCb (error success : val)      (* function (err, data) {..}, line 184 *)
| VPromisified (nodeStyle context : val) (* function () {..}, line 200 *)
| VClient (id : nat).                    (* a function of the client program *)

(** ToBoolean.  Numbers are integers here, so there is no NaN. *)
Definition truthy (v : val) : bool :=
  match v with
  | VUndefined | VNull => false
  | VBool b => b
  | VNum n => negb (n =? 0)%Z
  | VStr s => match s with EmptyString => false | _ => true end
  | _ => true
  end.

Definition method_eqb (a b : method) : bool :=
  match a, b with
  | Mthen, Mthen | Mcatch, Mcatch | Mresolve, Mresolve | Mreject, Mreject => true
  | _, _ => false
  end.

Definition toplevel_eqb (a b : toplevel) : bool :=
  match a, b with
  | Fdefer, Fdefer | Fpromisify, Fpromisify
  | Fresolved, Fresolved | Frejected, Frejected => true
  | _, _ => false
  end.

(** The operator [===]: primitives by value, objects and functions by
    identity.  Error objects and the closures of lines 184 and 200 are
    created afresh at each evaluation and carry no identity here, so they
    compare unequal; the source only ever compares a status tag, which is
    none of these. *)
Definition strict_equal (a b : val) : bool :=
  match a, b with
  | VUndefined, VUndefined | VNull, VNull => true
  | VBool x, VBool y => Bool.eqb x y
  | VNum x, VNum y => (x =? y)%Z
  | VStr x, VStr y => String.eqb x y
  | VObject i, VObject j => Nat.eqb i j
  | VPromise r, VPromise q => Nat.eqb r q
  | VDeferred r, VDeferred q => Nat.eqb r q
  | VBound m r, VBound k q => method_eqb m k && Nat.eqb r q
  | VFun f, VFun g => toplevel_eqb f g
  | VClient i, VClient j => Nat.eqb i j
  | _, _ => false
  end.

(** ** Module-level variables

    [var] declarations are hoisted, assignments run in source order.  Line
    10 binds three fresh objects; lines 220 and 225 assign [resolved] and
    [rejected] again.  Every function of the module runs after the module
    body, hence sees the final bindings. *)
Record bindings : Type := mkBindings
  { b_rejected : val; b_resolved : val; b_waiting : val }.

Definition hoisted : bindings := mkBindings VUndefined VUndefined VUndefined.

(* var rejected = {}, resolved = {}, waiting = {}; *)
Definition line10 (b : bindings) : bindings :=
  mkBindings (VObject 0) (VObject 1) (VObject 2).

(* var resolved = function (value) { .. }; *)
Definition line220 (b : bindings) : bindings :=
  mkBindings (b_rejected b) (VFun Fresolved) (b_waiting b).

(* var rejected = function (error) { .. }; *)
Definition line225 (b : bindings) : bindings :=
  mkBindings (VFun Frejected) (b_resolved b) (b_waiting b).

Definition loaded : bindings := line225 (line220 (line10 hoisted)).

Definition rejected : val := b_rejected loaded.
Definition resolved : val := b_resolved loaded.
Definition waiting : val := b_waiting loaded.

(** ** Promises, the heap and the trace of client calls *)

Record Promise : Type := mkPromise
  { value : val;
    status : val;
    owed : val;            (* undefined until [then] stores a callback *)
    onFail : val;          (* undefined until [catch] stores a callback *)
    next : option ref }.   (* the deferred made by [then], by its promise *)

Definition set_value (v : val) (p : Promise) : Promise :=
  mkPromise v (status p) (owed p) (onFail p) (next p).
Definition set_status (v : val) (p : Promise) : Promise :=
  mkPromise (value p) v (owed p) (onFail p) (next p).
Definition set_owed (v : val) (p : Promise) : Promise :=
  mkPromise (value p) (status p) v (onFail p) (next p).
Definition set_onFail (v : val) (p : Promise) : Promise :=
  mkPromise (value p) (status p) (owed p) v (next p).
Definition set_next (d : ref) (p : Promise) : Promise :=
  mkPromise (value p) (status p) (owed p) (onFail p) (Some d).

(** One entry per invocation of a client function: which one, its
    receiver and its arguments. *)
Inductive event : Type := Invoked (id : nat) (this : val) (args : list val).

Record state : Type := mkState { heap : list Promise; calls : list event }.

Definition empty : state := mkState [] [].

(** ** The effect monad: state, exceptions, fuel *)

Inductive outcome (A : Type) : Type :=
| Returns (a : A) (s : state)
| Throws (e : val) (s : state)
| Stuck                      (* a reference outside the heap; no JS value is one *)
| OutOfFuel.
Arguments Returns {A} a s.
Arguments Throws {A} e s.
Arguments Stuck {A}.
Arguments OutOfFuel {A}.

Definition M (A : Type) : Type := state -> outcome A.

Definition ret {A} (a : A) : M A := fun s => Returns a s.

Definition bind {A B} (m : M A) (k : A -> M B) : M B :=
  fun s => match m s with
           | Returns a s' => k a s'
           | Throws e s' => Throws e s'
           | Stuck => Stuck
           | OutOfFuel => OutOfFuel
           end.

Notation "x <- m ;; k" := (bind m (fun x => k))
  (at level 100, m at next level, right associativity).
Notation "m ;; k" := (bind m (fun _ => k))
  (at level 100, right associativity).

Definition throw {A} (e : val) : M A := fun s => Throws e s.

Definition try_catch {A} (m : M A) (h : val -> M A) : M A :=
  fun s => match m s with
           | Throws e s' => h e s'
           | o => o
           end.

Definition read (r : ref) : M Promise :=
  fun s => match heap s !! r with
           | Some p => Returns p s
           | None => Stuck
           end.

Definition write (r : ref) (f : Promise -> Promise) : M unit :=
  fun s => match heap s !! r with
           | Some p => Returns tt (mkState (<[r := f p]> (heap s)) (calls s))
           | None => Stuck
           end.

Definition alloc (p : Promise) : M ref :=
  fun s => Returns (length (heap s)) (mkState (heap s ++ [p]) (calls s)).

Definition record (e : event) : M unit :=
  fun s => Returns tt (mkState (heap s) (calls s ++ [e])).

Definition when (b : bool) (m : M unit) : M unit := if b then m else ret tt.

(** ** Client programs

    The body of a client function: it returns, throws, calls any function
    value it holds, or guards a block with try/catch. *)
Inductive prog : Type :=
| Ret (v : val)
| Raise (e : val)
| Invoke (f this : val) (args : list val) (k : val -> prog)
| Try (body : prog) (handler : val -> prog) (k : val -> prog).

Definition arg (i : nat) (args : list val) : val := nth i args VUndefined.

Definition TypeError : val := VError "TypeError".

(** Property lookup [v.then] and [v.catch]: only promises have them. *)
Definition get_then (v : val) : val :=
  match v with VPromise r => VBound Mthen r | _ => VUndefined end.
Definition get_catch (v : val) : val :=
  match v with VPromise r => VBound Mcatch r | _ => VUndefined end.

(** ** The library

    [call] stands for a call of a function value: the knot that [call_fuel]
    ties below.  Calls whose target is fixed by the source text ([this.fulfill],
    [this.catch], [this.promise.abandon]) are direct. *)
Section Library.

Variable client : nat -> val -> list val -> prog.
Variable call : val -> val -> list val -> M val.

(* var Promise = function (value, status) *)
Definition Promise_new (value status : val) : M ref :=
  alloc (mkPromise value (if truthy status then status else waiting)
                   VUndefined VUndefined None).

(* var defer = function () { return new Deferred(new Promise()); } *)
Definition defer : M ref := Promise_new VUndefined VUndefined.

(* Promise.prototype.abandon = function (error, force) *)
Definition abandon (this : ref) (error : val) (force : bool) : M unit :=
  p <- read this ;;
  if negb (strict_equal (status p) waiting) && negb force
  then throw (VError "Tried to abandon a promise twice.")
  else
    write this (set_status rejected) ;;
    p <- read this ;;
    if truthy (onFail p)
    then
      write this (set_value error) ;;
      p <- read this ;;
      call (onFail p) (VPromise this) [error] ;;
      ret tt
    else
      match next p with
      | Some d => call (VBound Mreject d) (VDeferred d) [error] ;; ret tt
      | None => ret tt
      end.

(* Promise.prototype.catch = function (failure) *)
Definition catch (this : ref) (failure : val) : M unit :=
  p <- read this ;;
  if truthy (onFail p)
  then throw (VError "Tried to catch a promise twice.")
  else
    write this (set_onFail failure) ;;
    p <- read this ;;
    if strict_equal (status p) rejected
    then abandon this (value p) true
    else ret tt.

(* Promise.prototype.fulfill = function (data, force) *)
Definition fulfill (this : ref) (data : val) (force : bool) : M unit :=
  p <- read this ;;
  if negb (strict_equal (status p) waiting) && negb force
  then throw (VError "Tried to fulfill a promise twice.")
  else
    write this (set_status resolved) ;;
    p <- read this ;;
    if truthy (owed p)
    then
      v <- call (owed p) (VPromise this) [data] ;;
      write this (set_value v) ;;
      p <- read this ;;
      if truthy (value p) && truthy (get_then (value p))
      then
        match next p with
        | None => throw TypeError
        | Some d =>
            call (get_then (value p)) (value p) [VBound Mresolve d] ;;
            p <- read this ;;
            match next p with
            | None => throw TypeError
            | Some d =>
                call (get_catch (value p)) (value p) [VBound Mreject d] ;;
                ret tt
            end
        end
      else ret tt
    else ret tt.

(* Promise.prototype.then = function (success, _failure) *)
Definition then_ (this : ref) (success _failure : val) : M val :=
  p <- read this ;;
  if truthy (owed p)
  then throw (VError "Tried to then a promise twice.")
  else
    write this (set_owed success) ;;
    d <- defer ;;
    write this (set_next d) ;;
    p <- read this ;;
    when (strict_equal (status p) resolved) (fulfill this (value p) true) ;;
    when (truthy _failure) (catch this _failure) ;;
    p <- read this ;;
    match next p with
    | Some d => ret (VPromise d)
    | None => throw TypeError
    end.

(* Deferred.prototype.resolve = function (data) *)
Definition Deferred_resolve (this : ref) (data : val) : M unit :=
  fulfill this data false.

(* Deferred.prototype.reject = function (error) *)
Definition Deferred_reject (this : ref) (error : val) : M unit :=
  abandon this error false.

(* var failable = function (nodeStyle, error, success); the first
   argument is the function of line 208, given by its body. *)
Definition failable (nodeStyle : val -> M val) (error success : val) : M unit :=
  nodeStyle (VFailableCb error success) ;;
  ret tt.

(* function (err, data) { if (err) { error(err); } else { success(data); } } *)
Definition failable_cb (error success err data : val) : M val :=
  (if truthy err
   then call error VUndefined [err]
   else call success VUndefined [data]) ;;
  ret VUndefined.

(* var promisify = function (nodeStyle, context) *)
Definition promisify (nodeStyle context : val) : M val :=
  ret (VPromisified nodeStyle context).

(* the promisified function, lines 200-216 *)
Definition promisified (nodeStyle context : val) (args : list val) : M val :=
  deferred <- defer ;;
  failable (fun cb => call nodeStyle context (args ++ [cb]))
           (VBound Mreject deferred) (VBound Mresolve deferred) ;;
  ret (VPromise deferred).

(* var resolved = function (value) { return new Promise(value, resolved); } *)
Definition resolved_fn (value : val) : M val :=
  r <- Promise_new value resolved ;; ret (VPromise r).

(* var rejected = function (error) { return new Promise(error, rejected); } *)
Definition rejected_fn (error : val) : M val :=
  r <- Promise_new error rejected ;; ret (VPromise r).

(** The body of a client function, run against the library. *)
Fixpoint run (c : prog) : M val :=
  match c with
  | Ret v => ret v
  | Raise e => throw e
  | Invoke f this args k => v <- call f this args ;; run (k v)
  | Try body handler k =>
      v <- try_catch (run body) (fun e => run (handler e)) ;; run (k v)
  end.

(** What calling a function value does. *)
Definition apply_function (f this : val) (args : list val) : M val :=
  match f with
  | VBound Mthen r => then_ r (arg 0 args) (arg 1 args)
  | VBound Mcatch r => catch r (arg 0 args) ;; ret VUndefined
  | VBound Mresolve r => Deferred_resolve r (arg 0 args) ;; ret VUndefined
  | VBound Mreject r => Deferred_reject r (arg 0 args) ;; ret VUndefined
  | VFun Fdefer => d <- defer ;; ret (VDeferred d)
  | VFun Fpromisify => promisify (arg 0 args) (arg 1 args)
  | VFun Fresolved => resolved_fn (arg 0 args)
  | VFun Frejected => rejected_fn (arg 0 args)
  | VFailableCb error success =>
      failable_cb error success (arg 0 args) (arg 1 args)
  | VPromisified nodeStyle context => promisified nodeStyle context args
  | VClient id =>
      record (Invoked id this args) ;;
      run (client id this args)
  | _ => throw TypeError
  end.

End Library.

(** A call with [fuel] nested dynamic calls allowed. *)
Fixpoint call_fuel (client : nat -> val -> list val -> prog) (fuel : nat)
    (f this : val) (args : list val) : M val :=
  match fuel with
  | O => fun _ => OutOfFuel
  | S n => apply_function client (call_fuel client n) f this args
  end.

(** * Vocabulary of the statements *)

(** ** How a promise may change

    [stable_promise p p'] relates a promise before and after any amount of
    library activity: the status only moves from [waiting] to a terminal
    tag, a stored callback is never replaced, and the value of a rejected
    promise is frozen. *)
Definition status_step (a b : val) : Prop :=
  b = a \/ (a = waiting /\ (b = resolved \/ b = rejected)).

Definition stable_promise (p p' : Promise) : Prop :=
  status_step (status p) (status p') /\
  (truthy (owed p) = true -> owed p' = owed p) /\
  (truthy (onFail p) = true -> onFail p' = onFail p) /\
  (status p = rejected -> value p' = value p).

Definition evolves (s s' : state) : Prop :=
  forall r p, heap s !! r = Some p ->
    exists p', heap s' !! r = Some p' /\ stable_promise p p'.

(** ** Weakest preconditions

    [wp m s Q E]: run from [s], [m] may only return a value and a state
    in [Q] or throw a value in a state in [E]. *)
Definition wp {A} (m : M A) (s : state)
    (Q : A -> state -> Prop) (E : val -> state -> Prop) : Prop :=
  match m s with
  | Returns a s' => Q a s'
  | Throws e s' => E e s'
  | Stuck | OutOfFuel => True
  end.

(** [keeps m]: whatever [m] does, the state it leaves evolves from the one
    it found. *)
Definition keeps {A} (m : M A) : Prop :=
  forall s, wp m s (fun _ s' => evolves s s') (fun _ s' => evolves s s').

(** The state a computation leaves, when it returns or throws. *)
Definition final_state {A} (o : outcome A) : option state :=
  match o with
  | Returns _ s | Throws _ s => Some s
  | Stuck | OutOfFuel => None
  end.

(** Forget the value a computation returns. *)
Definition void {A} (o : outcome A) : outcome unit :=
  match o with
  | Returns _ s => Returns tt s
  | Throws e s => Throws e s
  | Stuck => Stuck
  | OutOfFuel => OutOfFuel
  end.

(** ** Chains of promises

    [links h a rs] reads a chain off the heap: starting at [a], each
    promise is waiting, has no failure callback, and its [next] is the
    following element of [rs].  [tail_of a rs] is where the chain ends and
    [passed a rs] are the promises before the end. *)
Definition forwards_to (h : list Promise) (a b : ref) : bool :=
  match h !! a with
  | Some p =>
      strict_equal (status p) waiting && negb (truthy (onFail p)) &&
      match next p with Some d => Nat.eqb d b | None => false end
  | None => false
  end.

Fixpoint links (h : list Promise) (a : ref) (rs : list ref) : bool :=
  match rs with
  | [] => true
  | b :: rs' => forwards_to h a b && links h b rs'
  end.

Fixpoint tail_of (a : ref) (rs : list ref) : ref :=
  match rs with
  | [] => a
  | b :: rs' => tail_of b rs'
  end.

Fixpoint passed (a : ref) (rs : list ref) : list ref :=
  match rs with
  | [] => []
  | b :: rs' => a :: passed b rs'
  end.

Definition reject_at (r : ref) (h : list Promise) : list Promise :=
  match h !! r with
  | Some p => <[r := set_status rejected p]> h
  | None => h
  end.

Fixpoint mark_rejected (rs : list ref) (h : list Promise) : list Promise :=
  match rs with
  | [] => h
  | r :: rs' => mark_rejected rs' (reject_at r h)
  end.

(** ** Misuse and the adapter *)

(** The message of the error each method raises on misuse. *)
Definition usage_message (m : method) : string :=
  match m with
  | Mthen => "Tried to then a promise twice."
  | Mcatch => "Tried to catch a promise twice."
  | Mresolve => "Tried to fulfill a promise twice."
  | Mreject => "Tried to abandon a promise twice."
  end.

(** The callback that the promisified function hands to the node-style
    function, for the deferred whose promise is at [d]. *)
Definition node_callback (d : ref) : val :=
  VFailableCb (VBound Mreject d) (VBound Mresolve d).

(** The state right after [defer()]. *)
Definition deferred_in (s : state) : state :=
  mkState (heap s ++ [mkPromise VUndefined waiting VUndefined VUndefined None])
          (calls s).

(** ** Programs and heaps of the examples *)

(** Client functions of the examples.
    0: [x => x];  1: [n => n + 1];
    2: [() => resolved(1).then(n => n + 1)];
    3: a handler that returns nothing;
    4: [cb => cb(null, 42)];  5: [cb => cb("fail", undefined)];
    6: a node-style function that keeps its callback for later;
    7: [() => defer().promise]. *)
Definition sample (id : nat) (this : val) (args : list val) : prog :=
  match id with
  | 0 => Ret (arg 0 args)
  | 1 => match arg 0 args with
         | VNum n => Ret (VNum (n + 1))
         | _ => Ret VUndefined
         end
  | 2 => Invoke (VFun Fresolved) VUndefined [VNum 1] (fun p =>
         Invoke (get_then p) p [VClient 1] (fun q => Ret q))
  | 4 => Invoke (arg 0 args) VUndefined [VNull; VNum 42] (fun _ => Ret VUndefined)
  | 5 => Invoke (arg 0 args) VUndefined [VStr "fail"; VUndefined]
                (fun _ => Ret VUndefined)
  | 7 => Invoke (VFun Fdefer) VUndefined [] (fun d =>
         match d with
         | VDeferred r => Ret (VPromise r)
         | _ => Ret VUndefined
         end)
  | _ => Ret VUndefined
  end.

(** The heap after [a = defer().promise; a.then(x => x).catch(onErr)]. *)
Definition boom_heap : list Promise :=
  [ mkPromise VUndefined waiting (VClient 0) VUndefined (Some 1);
    mkPromise VUndefined waiting VUndefined (VClient 3) None ].

(** The heap after [a = defer().promise; a.then(x => x).then(x => x)]. *)
Definition drop_heap : list Promise :=
  [ mkPromise VUndefined waiting (VClient 0) VUndefined (Some 1);
    mkPromise VUndefined waiting (VClient 0) VUndefined (Some 2);
    mkPromise VUndefined waiting VUndefined VUndefined None ].

(** [var d = defer(); ... d.promise ... d.resolve ...] *)
Definition with_deferred (k : ref -> prog) : prog :=
  Invoke (VFun Fdefer) VUndefined [] (fun d =>
  match d with
  | VDeferred a => k a
  | _ => Raise TypeError
  end).

(** [q = a.then(n => n + 1); q.then(x => x); d.resolve(1)] *)
Definition chain_plain : prog :=
  with_deferred (fun a =>
  Invoke (VBound Mthen a) (VPromise a) [VClient 1] (fun q =>
  Invoke (get_then q) q [VClient 0] (fun _ =>
  Invoke (VBound Mresolve a) (VDeferred a) [VNum 1] (fun _ => Ret q)))).

(** [q = a.then(() => resolved(1).then(n => n + 1)); q.then(x => x);
    d.resolve()] *)
Definition chain_nested : prog :=
  with_deferred (fun a =>
  Invoke (VBound Mthen a) (VPromise a) [VClient 2] (fun q =>
  Invoke (get_then q) q [VClient 0] (fun _ =>
  Invoke (VBound Mresolve a) (VDeferred a) [VUndefined] (fun _ => Ret q)))).

(** [q = a.then(() => inner.promise); q.then(x => x); d.resolve();
    inner.resolve(9)], where [inner] is the deferred the callback makes *)
Definition chain_future : prog :=
  with_deferred (fun a =>
  Invoke (VBound Mthen a) (VPromise a) [VClient 7] (fun q =>
  Invoke (get_then q) q [VClient 0] (fun _ =>
  Invoke (VBound Mresolve a) (VDeferred a) [VUndefined] (fun _ =>
  Invoke (VBound Mresolve 3) (VDeferred 3) [VNum 9] (fun _ => Ret q))))).

(** [d.resolve(5); a.then(x => x)] and [a.then(x => x); d.resolve(5)] *)
Definition late_then : prog :=
  with_deferred (fun a =>
  Invoke (VBound Mresolve a) (VDeferred a) [VNum 5] (fun _ =>
  Invoke (VBound Mthen a) (VPromise a) [VClient 0] (fun q => Ret q))).

Definition early_then : prog :=
  with_deferred (fun a =>
  Invoke (VBound Mthen a) (VPromise a) [VClient 0] (fun q =>
  Invoke (VBound Mresolve a) (VDeferred a) [VNum 5] (fun _ => Ret q))).

(** [rejected("boom").then(x => x).catch(onErr)] and
    [a.then(x => x).catch(onErr); d.reject("boom")] *)
Definition late_then_rejected : prog :=
  Invoke (VFun Frejected) VUndefined [VStr "boom"] (fun f =>
  Invoke (get_then f) f [VClient 0] (fun q =>
  Invoke (get_catch q) q [VClient 3] (fun _ => Ret q))).

Definition early_then_rejected : prog :=
  with_deferred (fun a =>
  Invoke (VBound Mthen a) (VPromise a) [VClient 0] (fun q =>
  Invoke (get_catch q) q [VClient 3] (fun _ =>
  Invoke (VBound Mreject a) (VDeferred a) [VStr "boom"] (fun _ => Ret q)))).

(** ** Links of a chain

    [link_stable p p']: a stored success callback and the [next] made
    with it are still the same.  [preserves R m]: whatever [m] does, the
    state it leaves is related by [R] to the one it found. *)
Definition link_stable (p p' : Promise) : Prop :=
  truthy (owed p) = true -> owed p' = owed p /\ next p' = next p.

Definition linked (s s' : state) : Prop :=
  forall r p, heap s !! r = Some p ->
    exists p', heap s' !! r = Some p' /\ link_stable p p'.

Definition preserves (R : state -> state -> Prop) {A} (m : M A) : Prop :=
  forall s, wp m s (fun _ s' => R s s') (fun _ s' => R s s').

(** A function on promises that leaves [owed] and [next] alone. *)
Definition link_neutral (f : Promise -> Promise) : Prop :=
  forall p, owed (f p) = owed p /\ next (f p) = next p.

(** The client functions of [sample], and 8: a function that throws
    ["oops"]; 9: a function that calls [defer()] and then throws
    ["oops"]. *)
Definition sample_throwing (id : nat) (this : val) (args : list val) : prog :=
  match id with
  | 8 => Raise (VStr "oops")
  | 9 => Invoke (VFun Fdefer) VUndefined [] (fun _ => Raise (VStr "oops"))
  | _ => sample id this args
  end.

(** * Proofs *)

(** ** Status tags *)

Lemma strict_equal_waiting (x : val) :
  strict_equal x waiting = true <-> x = waiting.
Proof.
  unfold waiting; simpl. destruct x; simpl; split; intros H;
    try discriminate; try reflexivity.
  - apply Nat.eqb_eq in H. now subst.
  - injection H as ->. reflexivity.
Qed.

Lemma strict_equal_resolved (x : val) :
  strict_equal x resolved = true <-> x = resolved.
Proof.
  unfold resolved; simpl. destruct x; simpl; split; intros H;
    try discriminate; try reflexivity.
  - destruct f; try discriminate; reflexivity.
  - injection H as ->. reflexivity.
Qed.

Lemma strict_equal_rejected (x : val) :
  strict_equal x rejected = true <-> x = rejected.
Proof.
  unfold rejected; simpl. destruct x; simpl; split; intros H;
    try discriminate; try reflexivity.
  - destruct f; try discriminate; reflexivity.
  - injection H as ->. reflexivity.
Qed.

Lemma tags_distinct :
  waiting <> resolved /\ waiting <> rejected /\ resolved <> rejected.
Proof. repeat split; discriminate. Qed.

Lemma status_step_refl a : status_step a a.
Proof. now left. Qed.

Lemma status_step_trans a b c :
  status_step a b -> status_step b c -> status_step a c.
Proof.
  unfold status_step. destruct tags_distinct as (Hwr & Hwj & Hrj).
  intros [-> | [-> Hb]] [-> | [Hb' Hc]]; auto.
  all: try (destruct Hb as [-> | ->]; congruence).
Qed.

Lemma status_step_terminal a b :
  status_step a b -> a <> waiting -> b = a.
Proof. intros [-> | [-> _]] H; congruence. Qed.

Lemma stable_promise_refl p : stable_promise p p.
Proof. repeat split; auto using status_step_refl. Qed.

Lemma stable_promise_trans p q r :
  stable_promise p q -> stable_promise q r -> stable_promise p r.
Proof.
  intros (S1 & O1 & F1 & V1) (S2 & O2 & F2 & V2). repeat split.
  - eapply status_step_trans; eauto.
  - intros H. rewrite <- (O1 H). apply O2. now rewrite (O1 H).
  - intros H. rewrite <- (F1 H). apply F2. now rewrite (F1 H).
  - intros H. rewrite <- (V1 H). apply V2.
    rewrite (status_step_terminal _ _ S1); auto.
    rewrite H. discriminate.
Qed.

Lemma evolves_refl s : evolves s s.
Proof. intros r p H. exists p. split; auto using stable_promise_refl. Qed.

Lemma evolves_trans s1 s2 s3 : evolves s1 s2 -> evolves s2 s3 -> evolves s1 s3.
Proof.
  intros H12 H23 r p H.
  destruct (H12 r p H) as (q & Hq & Spq).
  destruct (H23 r q Hq) as (t & Ht & Sqt).
  exists t. split; eauto using stable_promise_trans.
Qed.

Lemma evolves_write s r p q :
  heap s !! r = Some p -> stable_promise p q ->
  evolves s (mkState (<[r := q]> (heap s)) (calls s)).
Proof.
  intros Hr Hs r' p' H'. simpl.
  destruct (decide (r = r')) as [<- | Hne].
  - exists q. split.
    + apply list_lookup_insert_eq. eapply lookup_lt_Some; eauto.
    + congruence.
  - exists p'. split; auto using stable_promise_refl.
    rewrite list_lookup_insert_ne; auto.
Qed.

Lemma evolves_alloc s p :
  evolves s (mkState (heap s ++ [p]) (calls s)).
Proof.
  intros r q H. exists q. split; auto using stable_promise_refl.
  simpl. rewrite lookup_app_l; auto. eapply lookup_lt_Some; eauto.
Qed.

Lemma evolves_record s e :
  evolves s (mkState (heap s) (calls s ++ [e])).
Proof. intros r q H. exists q. split; auto using stable_promise_refl. Qed.

(** ** Weakest preconditions for the monad *)

Lemma wp_ret {A} (a : A) s Q E : Q a s -> wp (ret a) s Q E.
Proof. auto. Qed.

Lemma wp_throw {A} e s (Q : A -> state -> Prop) E : E e s -> wp (throw e) s Q E.
Proof. auto. Qed.

Lemma wp_bind {A B} (m : M A) (k : A -> M B) s Q E :
  wp m s (fun a s' => wp (k a) s' Q E) E -> wp (bind m k) s Q E.
Proof. unfold wp, bind. destruct (m s); auto. Qed.

Lemma wp_conseq {A} (m : M A) s (Q Q' : A -> state -> Prop) (E E' : val -> state -> Prop) :
  wp m s Q E -> (forall a s', Q a s' -> Q' a s') -> (forall e s', E e s' -> E' e s') ->
  wp m s Q' E'.
Proof. unfold wp. destruct (m s); auto. Qed.

Lemma wp_read r s Q E :
  (forall p, heap s !! r = Some p -> Q p s) -> wp (read r) s Q E.
Proof. unfold wp, read. destruct (heap s !! r); auto. Qed.

Lemma wp_write r f s Q E :
  (forall p, heap s !! r = Some p ->
     Q tt (mkState (<[r := f p]> (heap s)) (calls s))) ->
  wp (write r f) s Q E.
Proof. unfold wp, write. destruct (heap s !! r); auto. Qed.

Lemma wp_alloc p s Q E :
  Q (length (heap s)) (mkState (heap s ++ [p]) (calls s)) -> wp (alloc p) s Q E.
Proof. auto. Qed.

Lemma wp_try {A} (m : M A) h s Q E :
  wp m s Q (fun e s' => wp (h e) s' Q E) -> wp (try_catch m h) s Q E.
Proof. unfold wp, try_catch. destruct (m s); auto. Qed.

Lemma keeps_wp {A} (m : M A) s0 s (Q : A -> state -> Prop) E :
  keeps m -> evolves s0 s ->
  (forall a s', evolves s0 s' -> evolves s s' -> Q a s') ->
  (forall e s', evolves s0 s' -> evolves s s' -> E e s') ->
  wp m s Q E.
Proof.
  intros K H0 HQ HE. eapply wp_conseq; [apply K | |];
    simpl; eauto using evolves_trans.
Qed.

Lemma keeps_ret {A} (a : A) : keeps (ret a).
Proof. intros s. apply wp_ret, evolves_refl. Qed.

Lemma keeps_throw {A} e : keeps (@throw A e).
Proof. intros s. apply wp_throw, evolves_refl. Qed.

Lemma keeps_bind {A B} (m : M A) (k : A -> M B) :
  keeps m -> (forall a, keeps (k a)) -> keeps (bind m k).
Proof.
  intros Km Kk s. apply wp_bind.
  eapply keeps_wp; eauto using evolves_refl.
  intros a s' _ H. eapply keeps_wp; eauto.
Qed.

Lemma keeps_try {A} (m : M A) h :
  keeps m -> (forall e, keeps (h e)) -> keeps (try_catch m h).
Proof.
  intros Km Kh s. apply wp_try.
  eapply keeps_wp; eauto using evolves_refl.
  intros e s' _ H. eapply keeps_wp; eauto.
Qed.

Lemma keeps_alloc p : keeps (alloc p).
Proof. intros s. apply wp_alloc, evolves_alloc. Qed.

Lemma keeps_record e : keeps (record e).
Proof. intros s. apply evolves_record. Qed.

Lemma wp_evolves {A} (m : M A) s0 s (Q : A -> state -> Prop) E :
  wp m s (fun _ s' => evolves s s') (fun _ s' => evolves s s') ->
  evolves s0 s ->
  (forall a s', evolves s0 s' -> Q a s') ->
  (forall e s', evolves s0 s' -> E e s') ->
  wp m s Q E.
Proof.
  intros K H0 HQ HE. eapply wp_conseq; [apply K | |];
    simpl; eauto using evolves_trans.
Qed.

Lemma lookup_write (h : list Promise) r p q :
  h !! r = Some p -> <[r := q]> h !! r = Some q.
Proof. intros H. apply list_lookup_insert_eq. eapply lookup_lt_Some; eauto. Qed.

Lemma insert_twice (h : list Promise) r p q :
  <[r := q]> (<[r := p]> h) = <[r := q]> h.
Proof. apply list_insert_insert_eq. Qed.

Ltac same_lookup :=
  match goal with
  | H : ?l !! ?r = Some ?p, H' : ?l !! ?r = Some ?q |- _ =>
      rewrite H in H'; injection H' as <-
  | H : <[?r := ?q]> ?l !! ?r = Some ?p, H0 : ?l !! ?r = Some _ |- _ =>
      rewrite (lookup_write _ _ _ _ H0) in H; injection H as <-
  end.

(** ** The library keeps promises stable *)

Lemma evolves_status s s' r p :
  evolves s s' -> heap s !! r = Some p -> status p <> waiting ->
  exists p', heap s' !! r = Some p' /\ status p' = status p.
Proof.
  intros Ev Hp Hw. destruct (Ev r p Hp) as (p' & Hp' & St & _).
  exists p'. split; auto. now apply status_step_terminal.
Qed.

Lemma evolves_owed s s' r p :
  evolves s s' -> heap s !! r = Some p -> truthy (owed p) = true ->
  exists p', heap s' !! r = Some p' /\ owed p' = owed p.
Proof.
  intros Ev Hp Ht. destruct (Ev r p Hp) as (p' & Hp' & _ & O & _).
  exists p'. auto.
Qed.

Lemma evolves_onFail s s' r p :
  evolves s s' -> heap s !! r = Some p -> truthy (onFail p) = true ->
  exists p', heap s' !! r = Some p' /\ onFail p' = onFail p.
Proof.
  intros Ev Hp Ht. destruct (Ev r p Hp) as (p' & Hp' & _ & _ & F & _).
  exists p'. auto.
Qed.

Section Keeps.

Variable call : val -> val -> list val -> M val.
Hypothesis call_keeps : forall f this args, keeps (call f this args).

Ltac call_step s0 :=
  apply wp_bind; eapply (keeps_wp _ s0);
  [ apply call_keeps | eassumption | | intros ? ? ? ?; assumption ].

(** A forced [abandon] is safe where [catch] issues it: on a promise
    already rejected, with the stored value as the error.  Once past the
    guard, [abandon] leaves the promise rejected, however it ends. *)
Lemma abandon_evolves this error force s :
  (force = true -> exists p, heap s !! this = Some p /\
                             status p = rejected /\ value p = error) ->
  let post := fun s' =>
    evolves s s' /\
    (forall p, heap s !! this = Some p ->
       negb (strict_equal (status p) waiting) && negb force = false ->
       exists p', heap s' !! this = Some p' /\ status p' = rejected) in
  wp (abandon call this error force) s (fun _ => post) (fun _ => post).
Proof.
  intros Hforce post. unfold abandon.
  apply wp_bind, wp_read. intros p Hp.
  destruct (negb (strict_equal (status p) waiting) && negb force) eqn:G.
  { apply wp_throw. split; [apply evolves_refl |].
    intros q Hq G'. same_lookup. congruence. }
  assert (Hst : status p = waiting \/
                (status p = rejected /\ value p = error)).
  { destruct (strict_equal (status p) waiting) eqn:W.
    - left. now apply strict_equal_waiting.
    - right. destruct force; try discriminate.
      destruct Hforce as (q & Hq & ? & ?); auto. same_lookup. auto. }
  assert (Step : status_step (status p) rejected).
  { destruct Hst as [-> | [-> _]]; [right | left]; auto. }
  apply wp_bind, wp_write. intros p0 Hp0. same_lookup.
  apply wp_bind, wp_read. simpl. intros p1 Hp1. same_lookup. simpl.
  assert (Fin : forall s1 s' q, evolves s s1 -> evolves s1 s' ->
            heap s1 !! this = Some q -> status q = rejected -> post s').
  { intros s1 s' q E1 E2 Hq Sq. split; [eauto using evolves_trans |].
    intros _ _ _.
    destruct (evolves_status _ _ this _ E2 Hq) as (p' & ? & ?).
    - rewrite Sq. discriminate.
    - exists p'. split; congruence. }
  destruct (truthy (onFail p)) eqn:F.
  - apply wp_bind, wp_write. simpl. intros p2 Hp2. same_lookup.
    rewrite insert_twice.
    assert (Ev : evolves s (mkState
              (<[this := set_value error (set_status rejected p)]> (heap s))
              (calls s))).
    { eapply evolves_write; eauto. repeat split; simpl; auto.
      intros R. destruct Hst as [W | [_ V]]; auto.
      rewrite R in W. discriminate. }
    assert (L : <[this := set_value error (set_status rejected p)]> (heap s)
                !! this = Some (set_value error (set_status rejected p)))
      by (eapply lookup_write; eauto).
    apply wp_bind, wp_read. simpl. intros p3 Hp3. same_lookup. simpl.
    apply wp_bind. eapply wp_conseq; [apply call_keeps | |]; simpl.
    + intros _ s' E'. apply wp_ret. exact (Fin _ _ _ Ev E' L eq_refl).
    + intros _ s' E'. exact (Fin _ _ _ Ev E' L eq_refl).
  - assert (Ev : evolves s (mkState
              (<[this := set_status rejected p]> (heap s)) (calls s))).
    { eapply evolves_write; eauto. repeat split; simpl; auto. }
    assert (L : <[this := set_status rejected p]> (heap s) !! this =
                Some (set_status rejected p)) by (eapply lookup_write; eauto).
    destruct (next p) as [d |].
    + apply wp_bind. eapply wp_conseq; [apply call_keeps | |]; simpl.
      * intros _ s' E'. apply wp_ret. exact (Fin _ _ _ Ev E' L eq_refl).
      * intros _ s' E'. exact (Fin _ _ _ Ev E' L eq_refl).
    + apply wp_ret. exact (Fin _ _ _ Ev (evolves_refl _) L eq_refl).
Qed.

(** When [catch] returns, a truthy callback is the one stored. *)
Lemma catch_evolves this failure s :
  wp (catch call this failure) s
     (fun _ s' => evolves s s' /\
                  (truthy failure = true ->
                   exists p', heap s' !! this = Some p' /\ onFail p' = failure))
     (fun _ s' => evolves s s').
Proof.
  unfold catch.
  apply wp_bind, wp_read. intros p Hp.
  destruct (truthy (onFail p)) eqn:F.
  { apply wp_throw, evolves_refl. }
  apply wp_bind, wp_write. intros p0 Hp0. same_lookup.
  assert (Ev : evolves s (mkState
            (<[this := set_onFail failure p]> (heap s)) (calls s))).
  { eapply evolves_write; eauto. repeat split; simpl; auto using status_step_refl.
    rewrite F. discriminate. }
  assert (L : <[this := set_onFail failure p]> (heap s) !! this =
              Some (set_onFail failure p)) by (eapply lookup_write; eauto).
  apply wp_bind, wp_read. simpl. intros p1 Hp1. same_lookup. simpl.
  destruct (strict_equal (status p) rejected) eqn:R.
  - apply strict_equal_rejected in R.
    eapply wp_conseq.
    + apply abandon_evolves. intros _.
      exists (set_onFail failure p). simpl. auto.
    + simpl. intros _ s' [Ev' _]. split; eauto using evolves_trans.
      intros T. destruct (evolves_onFail _ _ this _ Ev' L T) as (p' & ? & ?).
      exists p'. auto.
    + simpl. intros _ s' [Ev' _]. eauto using evolves_trans.
  - apply wp_ret. split; auto. simpl. eauto.
Qed.

Lemma catch_keeps this failure : keeps (catch call this failure).
Proof.
  intros s. eapply wp_conseq; [apply catch_evolves | |]; simpl; tauto.
Qed.

(** A forced [fulfill] is safe where [then] issues it: on a promise
    already resolved.  Once past the guard, [fulfill] leaves the promise
    resolved, however it ends. *)
Lemma fulfill_evolves this data force s :
  (force = true -> exists p, heap s !! this = Some p /\ status p = resolved) ->
  let post := fun s' =>
    evolves s s' /\
    (forall p, heap s !! this = Some p ->
       negb (strict_equal (status p) waiting) && negb force = false ->
       exists p', heap s' !! this = Some p' /\ status p' = resolved) in
  wp (fulfill call this data force) s (fun _ => post) (fun _ => post).
Proof.
  intros Hforce post. unfold fulfill.
  destruct tags_distinct as (Hwr & Hwj & Hrj).
  apply wp_bind, wp_read. intros p Hp.
  destruct (negb (strict_equal (status p) waiting) && negb force) eqn:G.
  { apply wp_throw. split; [apply evolves_refl |].
    intros q Hq G'. same_lookup. congruence. }
  assert (Step : status_step (status p) resolved).
  { destruct (strict_equal (status p) waiting) eqn:W.
    - right. split; auto. now apply strict_equal_waiting.
    - left. destruct force; try discriminate.
      destruct Hforce as (q & Hq & ?); auto. same_lookup. auto. }
  apply wp_bind, wp_write. intros p0 Hp0. same_lookup.
  assert (Ev : evolves s (mkState
            (<[this := set_status resolved p]> (heap s)) (calls s))).
  { eapply evolves_write; eauto. repeat split; simpl; auto. }
  match goal with |- wp _ ?s1 _ _ => set (s1' := s1) in * end.
  assert (L : heap s1' !! this = Some (set_status resolved p))
    by (unfold s1'; simpl; eapply lookup_write; eauto).
  assert (Fin : forall s', evolves s1' s' -> post s').
  { intros s' E'. split; [eauto using evolves_trans |].
    intros _ _ _.
    destruct (evolves_status _ _ this _ E' L) as (p' & ? & ?); auto.
    exists p'. auto. }
  assert (E0 : evolves s1' s1') by apply evolves_refl.
  enough (R : wp (p <- read this ;;
                  if truthy (owed p)
                  then
                    v <- call (owed p) (VPromise this) [data] ;;
                    write this (set_value v) ;;
                    p <- read this ;;
                    if truthy (value p) && truthy (get_then (value p))
                    then
                      match next p with
                      | None => throw TypeError
                      | Some d =>
                          call (get_then (value p)) (value p) [VBound Mresolve d] ;;
                          p <- read this ;;
                          match next p with
                          | None => throw TypeError
                          | Some d =>
                              call (get_catch (value p)) (value p)
                                   [VBound Mreject d] ;;
                              ret tt
                          end
                      end
                    else ret tt
                  else ret tt) s1'
                 (fun _ s' => evolves s1' s') (fun _ s' => evolves s1' s')).
  { eapply wp_conseq; [apply R | |]; simpl; auto. }
  clearbody s1'. clear Fin post.
  apply wp_bind, wp_read. simpl. intros p1 Hp1. same_lookup. simpl.
  destruct (truthy (owed p)) eqn:O; [| now apply wp_ret].
  call_step s1'. intros v s2 Ev2 _.
  destruct (evolves_status _ _ this _ Ev2 L) as (p2 & Hp2 & S2); auto.
  simpl in S2.
  apply wp_bind, wp_write. intros p2' Hp2'. same_lookup.
  assert (Ev3 : evolves s1' (mkState
            (<[this := set_value v p2]> (heap s2)) (calls s2))).
  { eapply evolves_trans; eauto. eapply evolves_write; eauto.
    repeat split; simpl; auto using status_step_refl.
    intros R. congruence. }
  apply wp_bind, wp_read. simpl. intros p3 Hp3. same_lookup. simpl.
  destruct (truthy v && truthy (get_then v)); [| now apply wp_ret].
  destruct (next p2) as [d |]; [| now apply wp_throw].
  call_step s1'. intros a s4 Ev4 _.
  apply wp_bind, wp_read. intros p4 Hp4.
  destruct (next p4) as [d' |]; [| now apply wp_throw].
  call_step s1'. intros a' s5 Ev5 _. now apply wp_ret.
Qed.

(** When [then] returns, a truthy callback is the one stored. *)
Lemma then_evolves this success failure s :
  wp (then_ call this success failure) s
     (fun _ s' => evolves s s' /\
                  (truthy success = true ->
                   exists p', heap s' !! this = Some p' /\ owed p' = success))
     (fun _ s' => evolves s s').
Proof.
  unfold then_, defer, Promise_new.
  apply wp_bind, wp_read. intros p Hp.
  destruct (truthy (owed p)) eqn:O.
  { apply wp_throw, evolves_refl. }
  apply wp_bind, wp_write. intros p0 Hp0. same_lookup.
  apply wp_bind, wp_alloc. simpl.
  apply wp_bind, wp_write. simpl. intros p1 Hp1.
  assert (Hlt : this < length (heap s)) by (eapply lookup_lt_Some; eauto).
  rewrite lookup_app_l in Hp1 by (rewrite length_insert; auto).
  same_lookup.
  match goal with |- wp _ ?s1 _ _ => set (s1' := s1) end.
  assert (L1 : heap s1' !! this =
               Some (set_next (length (<[this:=set_owed success p]> (heap s)))
                              (set_owed success p))).
  { simpl. apply list_lookup_insert_eq. rewrite length_app, length_insert. lia. }
  assert (Ev : evolves s s1').
  { intros r q Hq. simpl.
    assert (r < length (heap s)) by (eapply lookup_lt_Some; eauto).
    destruct (decide (r = this)) as [-> | Hne].
    - rewrite Hp in Hq. injection Hq as <-.
      eexists. split; [apply L1 |].
      repeat split; simpl; auto using status_step_refl.
      rewrite O. discriminate.
    - exists q. split; auto using stable_promise_refl.
      rewrite list_lookup_insert_ne by auto.
      rewrite lookup_app_l by (rewrite length_insert; auto).
      rewrite list_lookup_insert_ne by auto. auto. }
  clearbody s1'.
  apply wp_bind, wp_read. intros p2 Hp2. same_lookup. simpl.
  apply wp_bind.
  assert (W1 : wp (when (strict_equal (status p) resolved)
                     (fulfill call this (value p) true)) s1'
                  (fun _ s' => evolves s1' s') (fun _ s' => evolves s1' s')).
  { unfold when. destruct (strict_equal (status p) resolved) eqn:R.
    - eapply wp_conseq; [apply fulfill_evolves | |]; simpl; try tauto.
      intros _. eexists. split; [apply L1 |].
      simpl. now apply strict_equal_resolved.
    - apply wp_ret, evolves_refl. }
  eapply wp_conseq; [apply W1 | |]; simpl; [| eauto using evolves_trans].
  intros _ s2 Ev2.
  apply wp_bind.
  assert (W2 : keeps (when (truthy failure) (catch call this failure))).
  { unfold when. destruct (truthy failure);
      auto using catch_keeps, keeps_ret. }
  eapply wp_conseq; [apply W2 | |]; simpl; [| eauto using evolves_trans].
  intros _ s3 Ev3.
  assert (Ev13 : evolves s1' s3) by eauto using evolves_trans.
  apply wp_bind, wp_read. intros p3 Hp3.
  destruct (next p3); [| apply wp_throw; eauto using evolves_trans].
  apply wp_ret. split; eauto using evolves_trans.
  intros T. destruct (evolves_owed _ _ this _ Ev13 L1 T) as (p' & ? & ?).
  exists p'. auto.
Qed.

Lemma then_keeps this success failure : keeps (then_ call this success failure).
Proof.
  intros s. eapply wp_conseq; [apply then_evolves | |]; simpl; tauto.
Qed.

Variable client : nat -> val -> list val -> prog.

Lemma run_keeps (c : prog) : keeps (run call c).
Proof.
  induction c as [v | e | f this args k IH | body IHb handler IHh k IHk]; simpl.
  - apply keeps_ret.
  - apply keeps_throw.
  - apply keeps_bind; auto.
  - apply keeps_bind; auto. apply keeps_try; auto.
Qed.

Lemma apply_function_keeps f this args :
  keeps (apply_function client call f this args).
Proof.
  destruct f; simpl; try apply keeps_throw.
  - destruct m.
    + apply then_keeps.
    + apply keeps_bind; auto using catch_keeps, keeps_ret.
    + apply keeps_bind; auto using keeps_ret. intros s.
      eapply wp_conseq; [apply fulfill_evolves; discriminate | |];
        simpl; tauto.
    + apply keeps_bind; auto using keeps_ret. intros s.
      eapply wp_conseq; [apply abandon_evolves; discriminate | |];
        simpl; tauto.
  - destruct f; unfold defer, promisify, resolved_fn, rejected_fn, Promise_new;
      repeat (apply keeps_bind; [| intros ?]);
      auto using keeps_ret, keeps_alloc.
  - unfold failable_cb. apply keeps_bind; auto using keeps_ret.
    destruct (truthy (arg 0 args)); auto.
  - unfold promisified, failable, defer, Promise_new.
    repeat (apply keeps_bind; [| intros ?]);
      auto using keeps_ret, keeps_alloc.
  - apply keeps_bind; auto using keeps_record, run_keeps.
Qed.

End Keeps.

Lemma call_fuel_keeps client fuel f this args :
  keeps (call_fuel client fuel f this args).
Proof.
  revert f this args. induction fuel as [| n IH]; intros f this args.
  - intros s. exact I.
  - simpl. apply apply_function_keeps. exact IH.
Qed.

(** ** Chains of promises *)

Lemma void_unit (o : outcome unit) : void o = o.
Proof. destruct o as [[] s | | |]; reflexivity. Qed.

Lemma bind_ret_void {A B} (m : M A) (b : B) s :
  void (bind m (fun _ => ret b) s) = void (m s).
Proof. unfold bind, ret. destruct (m s); reflexivity. Qed.

Lemma bind_ret_tt {A} (m : M A) s :
  bind m (fun _ => ret tt) s = void (m s).
Proof. unfold bind, ret. destruct (m s); reflexivity. Qed.

Lemma reject_at_other (h : list Promise) a r :
  a <> r -> reject_at a h !! r = h !! r.
Proof.
  intros Hne. unfold reject_at. destruct (h !! a); auto.
  now apply list_lookup_insert_ne.
Qed.

Lemma mark_rejected_other rs : forall (h : list Promise) r,
  r ∉ rs -> mark_rejected rs h !! r = h !! r.
Proof.
  induction rs as [| a rs IH]; intros h r Hr; simpl; auto.
  apply not_elem_of_cons in Hr as [Hne Hr].
  rewrite IH by auto. apply reject_at_other. congruence.
Qed.

Lemma mark_rejected_member rs : forall (h : list Promise) r p,
  NoDup rs -> r ∈ rs -> h !! r = Some p ->
  mark_rejected rs h !! r = Some (set_status rejected p).
Proof.
  induction rs as [| a rs IH]; intros h r p Hnd Hr Hp; simpl.
  - now apply elem_of_nil in Hr.
  - apply NoDup_cons in Hnd as [Ha Hnd].
    apply elem_of_cons in Hr as [-> | Hr].
    + rewrite mark_rejected_other by auto.
      unfold reject_at. rewrite Hp. eapply lookup_write; eauto.
    + apply IH; auto. rewrite reject_at_other; auto.
      intros ->. contradiction.
Qed.

Lemma mark_rejected_app l1 l2 (h : list Promise) :
  mark_rejected (l1 ++ l2) h = mark_rejected l2 (mark_rejected l1 h).
Proof. revert h. induction l1 as [| a l1 IH]; intros h; simpl; auto. Qed.

Lemma passed_tail rs : forall a, passed a rs ++ [tail_of a rs] = a :: rs.
Proof.
  induction rs as [| b rs IH]; intros a; simpl; auto.
  now rewrite IH.
Qed.

Lemma tail_not_passed a rs : NoDup (a :: rs) -> tail_of a rs ∉ passed a rs.
Proof.
  intros Hnd. rewrite <- passed_tail in Hnd.
  apply NoDup_app in Hnd as (_ & Hdisj & _).
  intros Hin. apply (Hdisj _ Hin). apply list_elem_of_singleton. reflexivity.
Qed.

Lemma forwards_to_spec (h : list Promise) a b :
  forwards_to h a b = true ->
  exists p, h !! a = Some p /\ strict_equal (status p) waiting = true /\
            truthy (onFail p) = false /\ next p = Some b.
Proof.
  unfold forwards_to. destruct (h !! a) as [p |]; try discriminate.
  intros H. apply andb_prop in H as [H Hn]. apply andb_prop in H as [Hw Hf].
  exists p. repeat split; auto.
  - now apply negb_true_iff in Hf.
  - destruct (next p) as [d |]; try discriminate.
    apply Nat.eqb_eq in Hn. now subst.
Qed.

Lemma forwards_to_reject_at (h : list Promise) r a b :
  r <> a -> forwards_to (reject_at r h) a b = forwards_to h a b.
Proof. intros Hne. unfold forwards_to. now rewrite reject_at_other. Qed.

Lemma links_reject_at rs : forall (h : list Promise) r a,
  r ∉ a :: rs -> links (reject_at r h) a rs = links h a rs.
Proof.
  induction rs as [| b rs IH]; intros h r a Hr; simpl; auto.
  apply not_elem_of_cons in Hr as [Hne Hr].
  rewrite forwards_to_reject_at by auto. now rewrite IH.
Qed.

(** ** Rejection along a chain *)
Section Rejection.

Variable client : nat -> val -> list val -> prog.

(** One hop: a waiting promise without a failure callback hands the error
    to its [next], unchanged. *)
Lemma abandon_hop m (h : list Promise) cs a b p e :
  h !! a = Some p -> strict_equal (status p) waiting = true ->
  truthy (onFail p) = false -> next p = Some b ->
  abandon (call_fuel client (S m)) a e false (mkState h cs) =
  abandon (call_fuel client m) b e false
          (mkState (<[a := set_status rejected p]> h) cs).
Proof.
  intros Hp Hw Hf Hn.
  rewrite <- (void_unit (abandon (call_fuel client m) b e false _)).
  unfold abandon at 1. unfold bind at 1. unfold read at 1. simpl.
  rewrite Hp, Hw. simpl.
  unfold bind at 1. unfold write at 1. simpl. rewrite Hp.
  unfold bind at 1. unfold read at 1. simpl.
  rewrite (lookup_write _ _ _ _ Hp). simpl. rewrite Hf, Hn.
  rewrite bind_ret_tt. unfold Deferred_reject.
  now rewrite bind_ret_void.
Qed.

(** At a promise with a failure callback: the error is stored and the
    callback is called with it. *)
Lemma abandon_handled call (h : list Promise) cs z p e :
  h !! z = Some p -> strict_equal (status p) waiting = true ->
  truthy (onFail p) = true ->
  abandon call z e false (mkState h cs) =
  void (call (onFail p) (VPromise z) [e]
         (mkState (<[z := set_value e (set_status rejected p)]> h) cs)).
Proof.
  intros Hp Hw Hf.
  unfold abandon. unfold bind at 1. unfold read at 1. simpl.
  rewrite Hp, Hw. simpl.
  unfold bind at 1. unfold write at 1. simpl. rewrite Hp.
  unfold bind at 1. unfold read at 1. simpl.
  rewrite (lookup_write _ _ _ _ Hp). simpl. rewrite Hf.
  unfold bind at 1. unfold write at 1. simpl.
  rewrite (lookup_write _ _ _ _ Hp), insert_twice.
  unfold bind at 1. unfold read at 1. simpl.
  rewrite (lookup_write _ _ _ _ Hp). simpl.
  now rewrite bind_ret_tt.
Qed.

(** At a promise with neither a failure callback nor a [next]: only the
    status changes. *)
Lemma abandon_dropped call (h : list Promise) cs z p e force :
  h !! z = Some p ->
  negb (strict_equal (status p) waiting) && negb force = false ->
  truthy (onFail p) = false -> next p = None ->
  abandon call z e force (mkState h cs) =
  Returns tt (mkState (<[z := set_status rejected p]> h) cs).
Proof.
  intros Hp Hw Hf Hn.
  unfold abandon. unfold bind at 1. unfold read at 1. simpl.
  rewrite Hp, Hw.
  unfold bind at 1. unfold write at 1. simpl. rewrite Hp.
  unfold bind at 1. unfold read at 1. simpl.
  rewrite (lookup_write _ _ _ _ Hp). simpl. now rewrite Hf, Hn.
Qed.

(** Along a chain the rejection travels to the end of it. *)
Lemma abandon_forwards e cs n rs : forall a (h : list Promise),
  NoDup (a :: rs) -> links h a rs = true ->
  abandon (call_fuel client (length rs + n)) a e false (mkState h cs) =
  abandon (call_fuel client n) (tail_of a rs) e false
          (mkState (mark_rejected (passed a rs) h) cs).
Proof.
  induction rs as [| b rs IH]; intros a h Hnd Hl; [reflexivity |].
  simpl in Hl. apply andb_prop in Hl as [Hf Hl].
  destruct (forwards_to_spec _ _ _ Hf) as (p & Hp & Hw & Hfail & Hn).
  apply NoDup_cons in Hnd as [Ha Hnd].
  change (length (b :: rs) + n) with (S (length rs + n)).
  cbn [tail_of passed mark_rejected].
  erewrite abandon_hop by eauto.
  unfold reject_at. rewrite Hp.
  apply IH; auto.
  change (<[a:=set_status rejected p]> h) with
    (match Some p with Some p => <[a:=set_status rejected p]> h | None => h end).
  rewrite <- Hp. fold (reject_at a h).
  rewrite links_reject_at; auto.
Qed.

End Rejection.

Lemma wp_final {A} (m : M A) s (Q : state -> Prop) :
  wp m s (fun _ => Q) (fun _ => Q) ->
  forall s', final_state (m s) = Some s' -> Q s'.
Proof.
  unfold wp. destruct (m s); simpl; intros H s' E;
    try discriminate; injection E as <-; auto.
Qed.

Lemma call_fuel_evolves client fuel f this args s s' :
  final_state (call_fuel client fuel f this args s) = Some s' -> evolves s s'.
Proof. apply wp_final. apply call_fuel_keeps. Qed.

(** [boom_heap] and [drop_heap] are what the registrations build. *)
Lemma boom_heap_built :
  run (call_fuel sample 1)
      (Invoke (VFun Fdefer) VUndefined [] (fun d =>
       match d with
       | VDeferred a =>
           Invoke (VBound Mthen a) (VPromise a) [VClient 0] (fun q =>
           Invoke (get_catch q) q [VClient 3] (fun _ => Ret d))
       | _ => Ret VUndefined
       end)) empty
  = Returns (VDeferred 0) (mkState boom_heap []).
Proof. reflexivity. Qed.

Lemma drop_heap_built :
  run (call_fuel sample 1)
      (Invoke (VFun Fdefer) VUndefined [] (fun d =>
       match d with
       | VDeferred a =>
           Invoke (VBound Mthen a) (VPromise a) [VClient 0] (fun q =>
           Invoke (get_then q) q [VClient 0] (fun _ => Ret d))
       | _ => Ret VUndefined
       end)) empty
  = Returns (VDeferred 0) (mkState drop_heap []).
Proof. reflexivity. Qed.

(** C3.  Failure forwarding: rejecting a waiting promise [a] from which a
    chain [rs] of waiting promises without failure callbacks leads, by
    [next], to a promise that has one, marks every promise on the way
    rejected and calls that first failure callback with the very error
    that was given to [reject]; nothing else happens before the call. *)
Theorem rejection_reaches_first_handler
    client n (h : list Promise) cs a rs pz e :
  NoDup (a :: rs) ->
  links h a rs = true ->
  h !! tail_of a rs = Some pz ->
  strict_equal (status pz) waiting = true ->
  truthy (onFail pz) = true ->
  Deferred_reject (call_fuel client (length rs + n)) a e (mkState h cs) =
  void (call_fuel client n (onFail pz) (VPromise (tail_of a rs)) [e]
          (mkState (<[tail_of a rs := set_value e (set_status rejected pz)]>
                      (mark_rejected (passed a rs) h)) cs)).
Proof.
  intros Hnd Hl Hz Hw Hf. unfold Deferred_reject.
  rewrite abandon_forwards by auto.
  apply abandon_handled; auto.
  rewrite mark_rejected_other; auto using tail_not_passed.
Qed.

Lemma rejection_reaches_first_handler_witness :
  NoDup [0; 1] /\
  links boom_heap 0 [1] = true /\
  boom_heap !! 1 = Some (mkPromise VUndefined waiting VUndefined (VClient 3) None) /\
  Deferred_reject (call_fuel sample 2) 0 (VStr "boom") (mkState boom_heap []) =
  Returns tt
    (mkState
       [ mkPromise VUndefined rejected (VClient 0) VUndefined (Some 1);
         mkPromise (VStr "boom") rejected VUndefined (VClient 3) None ]
       [ Invoked 3 (VPromise 1) [VStr "boom"] ]).
Proof.
  assert (Hnd : NoDup [0; 1]) by (apply (bool_decide_unpack _); reflexivity).
  split; [exact Hnd | split; [reflexivity | split; [reflexivity |]]].
  refine (eq_trans
    (rejection_reaches_first_handler sample 1 boom_heap [] 0 [1]
       (mkPromise VUndefined waiting VUndefined (VClient 3) None)
       (VStr "boom") Hnd eq_refl eq_refl eq_refl eq_refl) _).
  reflexivity.
Defined.

(** C6.  A rejection that finds no failure callback anywhere on the chain
    and no [next] at its end is dropped: [reject] returns normally, every
    promise of the chain is rejected, nothing else in the heap changes and
    no client function is called. *)
Theorem unhandled_rejection_dropped
    client n (h : list Promise) cs a rs pz e :
  NoDup (a :: rs) ->
  links h a rs = true ->
  h !! tail_of a rs = Some pz ->
  strict_equal (status pz) waiting = true ->
  truthy (onFail pz) = false ->
  next pz = None ->
  Deferred_reject (call_fuel client (length rs + n)) a e (mkState h cs) =
    Returns tt (mkState (mark_rejected (a :: rs) h) cs) /\
  (forall r p, r ∈ a :: rs -> h !! r = Some p ->
     mark_rejected (a :: rs) h !! r = Some (set_status rejected p)) /\
  (forall r, r ∉ a :: rs -> mark_rejected (a :: rs) h !! r = h !! r).
Proof.
  intros Hnd Hl Hz Hw Hf Hn. split; [| split].
  - unfold Deferred_reject. rewrite abandon_forwards by auto.
    assert (Hz' : mark_rejected (passed a rs) h !! tail_of a rs = Some pz).
    { rewrite mark_rejected_other; auto using tail_not_passed. }
    erewrite abandon_dropped; eauto.
    + rewrite <- (passed_tail rs a), mark_rejected_app. simpl.
      unfold reject_at. now rewrite Hz'.
    + now rewrite Hw.
  - intros r p Hr Hp. now apply mark_rejected_member.
  - intros r Hr. now apply mark_rejected_other.
Qed.

Lemma unhandled_rejection_dropped_witness :
  NoDup [0; 1; 2] /\
  links drop_heap 0 [1; 2] = true /\
  Deferred_reject (call_fuel sample 2) 0 (VStr "boom") (mkState drop_heap []) =
  Returns tt
    (mkState
       [ mkPromise VUndefined rejected (VClient 0) VUndefined (Some 1);
         mkPromise VUndefined rejected (VClient 0) VUndefined (Some 2);
         mkPromise VUndefined rejected VUndefined VUndefined None ]
       []).
Proof.
  assert (Hnd : NoDup [0; 1; 2]) by (apply (bool_decide_unpack _); reflexivity).
  split; [exact Hnd | split; [reflexivity |]].
  refine (eq_trans (proj1
    (unhandled_rejection_dropped sample 0 drop_heap [] 0 [1; 2]
       (mkPromise VUndefined waiting VUndefined VUndefined None)
       (VStr "boom") Hnd eq_refl eq_refl eq_refl eq_refl eq_refl)) _).
  reflexivity.
Defined.

(** C10.  Rejecting a promise that has no failure callback leaves its
    [value] as it was: when the call passes the guard (the promise is
    waiting, or the call is forced), every state it can end in has the
    promise rejected with the value it had before, whatever callbacks run
    further down the chain; and without a [next] the status is the only
    thing in the whole state that changes. *)
Theorem abandon_without_handler_keeps_value client n this e force s p :
  heap s !! this = Some p ->
  truthy (onFail p) = false ->
  negb (strict_equal (status p) waiting) && negb force = false ->
  (forall s', final_state (abandon (call_fuel client n) this e force s) = Some s' ->
     exists p', heap s' !! this = Some p' /\
                status p' = rejected /\ value p' = value p) /\
  (next p = None ->
     abandon (call_fuel client n) this e force s =
     Returns tt (mkState (<[this := set_status rejected p]> (heap s)) (calls s))).
Proof.
  intros Hp Hf Hg. split.
  - apply wp_final. unfold abandon.
    apply wp_bind, wp_read. intros p0 Hp0. same_lookup. rewrite Hg.
    apply wp_bind, wp_write. intros p0 Hp0. same_lookup.
    apply wp_bind, wp_read. simpl. intros p1 Hp1. same_lookup. simpl.
    rewrite Hf.
    assert (L : <[this:=set_status rejected p]> (heap s) !! this =
                Some (set_status rejected p)) by (eapply lookup_write; eauto).
    destruct (next p) as [d |].
    + apply wp_bind.
      eapply wp_conseq; [apply call_fuel_keeps | |]; simpl.
      * intros _ s' Ev. apply wp_ret.
        destruct (Ev this _ L) as (p' & Hp' & St & _ & _ & V).
        simpl in St, V.
        apply status_step_terminal in St; [| discriminate].
        exists p'. auto.
      * intros _ s' Ev.
        destruct (Ev this _ L) as (p' & Hp' & St & _ & _ & V).
        simpl in St, V.
        apply status_step_terminal in St; [| discriminate].
        exists p'. auto.
    + apply wp_ret. simpl. eauto.
  - intros Hn. destruct s as [h cs]. simpl in *.
    now apply abandon_dropped.
Qed.

Lemma abandon_without_handler_keeps_value_witness :
  heap (mkState boom_heap []) !! 0 =
    Some (mkPromise VUndefined waiting (VClient 0) VUndefined (Some 1)) /\
  (forall s',
     final_state (abandon (call_fuel sample 2) 0 (VStr "boom") false
                    (mkState boom_heap [])) = Some s' ->
     exists p', heap s' !! 0 = Some p' /\
                status p' = rejected /\ value p' = VUndefined).
Proof.
  split; [reflexivity |].
  exact (proj1 (abandon_without_handler_keeps_value sample 2 0 (VStr "boom")
                  false (mkState boom_heap [])
                  (mkPromise VUndefined waiting (VClient 0) VUndefined (Some 1))
                  eq_refl eq_refl eq_refl)).
Defined.

(** ** Misuse and the status invariant *)

Lemma wp_returns {A} (m : M A) s Q E a s' :
  wp m s Q E -> m s = Returns a s' -> Q a s'.
Proof. unfold wp. intros H Eq. now rewrite Eq in H. Qed.

Lemma bind_ret_returns {A B} (m : M A) (b : B) s v s' :
  bind m (fun _ => ret b) s = Returns v s' -> exists a, m s = Returns a s'.
Proof.
  unfold bind, ret. destruct (m s); try discriminate.
  intros H. injection H as _ <-. eauto.
Qed.

Lemma not_waiting (x : val) : x <> waiting -> strict_equal x waiting = false.
Proof.
  intros H. destruct (strict_equal x waiting) eqn:E; auto.
  apply strict_equal_waiting in E. contradiction.
Qed.

(** The guards, one by one. *)
Lemma then_guard call this success failure s p :
  heap s !! this = Some p -> truthy (owed p) = true ->
  then_ call this success failure s =
  Throws (VError "Tried to then a promise twice.") s.
Proof.
  intros Hp Ho. unfold then_, bind, read. now rewrite Hp, Ho.
Qed.

Lemma catch_guard call this failure s p :
  heap s !! this = Some p -> truthy (onFail p) = true ->
  catch call this failure s =
  Throws (VError "Tried to catch a promise twice.") s.
Proof.
  intros Hp Ho. unfold catch, bind, read. now rewrite Hp, Ho.
Qed.

Lemma fulfill_guard call this data s p :
  heap s !! this = Some p -> status p <> waiting ->
  fulfill call this data false s =
  Throws (VError "Tried to fulfill a promise twice.") s.
Proof.
  intros Hp Hw. unfold fulfill, bind, read.
  now rewrite Hp, (not_waiting _ Hw).
Qed.

Lemma abandon_guard call this error s p :
  heap s !! this = Some p -> status p <> waiting ->
  abandon call this error false s =
  Throws (VError "Tried to abandon a promise twice.") s.
Proof.
  intros Hp Hw. unfold abandon, bind, read.
  now rewrite Hp, (not_waiting _ Hw).
Qed.



(** C4.  Each of the four misuses throws at once: when a call of [then]
    or [catch] that stored a function, or a call of [resolve] or [reject],
    has returned, the same method called again on the same object throws
    the usage error of that method and leaves the state untouched,
    whatever the status of the promise was before the first call. *)
Theorem second_call_is_usage_error
    client n k m r this args this' args' s v s1 :
  call_fuel client n (VBound m r) this args s = Returns v s1 ->
  (m = Mthen \/ m = Mcatch -> truthy (arg 0 args) = true) ->
  call_fuel client (S k) (VBound m r) this' args' s1 =
  Throws (VError (usage_message m)) s1.
Proof.
  intros H1 Ht. destruct n as [| n]; [discriminate |].
  simpl in H1. simpl.
  pose proof (call_fuel_keeps client n) as K.
  destruct m; simpl.
  - pose proof (wp_returns _ _ _ _ _ _ (then_evolves _ K r _ _ s) H1)
      as [_ Ho].
    destruct Ho as (p' & Hp' & Ho); auto.
    eapply then_guard; eauto. rewrite Ho. auto.
  - apply bind_ret_returns in H1 as [a H1].
    pose proof (wp_returns _ _ _ _ _ _ (catch_evolves _ K r _ s) H1)
      as [_ Ho].
    destruct Ho as (p' & Hp' & Ho); auto.
    unfold bind. erewrite catch_guard; eauto. rewrite Ho. auto.
  - apply bind_ret_returns in H1 as [a H1]. unfold Deferred_resolve in *.
    assert (Hf : false = true -> exists p, heap s !! r = Some p /\
                                           status p = resolved)
      by discriminate.
    pose proof (wp_returns _ _ _ _ _ _ (fulfill_evolves _ K r _ false s Hf) H1)
      as [_ Hs].
    unfold fulfill, bind, read in H1.
    destruct (heap s !! r) as [p |] eqn:Hp; [| discriminate].
    destruct (negb (strict_equal (status p) waiting) && negb false) eqn:G;
      [discriminate |].
    destruct (Hs p eq_refl G) as (p' & Hp' & Hst).
    unfold bind. erewrite fulfill_guard; eauto.
    rewrite Hst. discriminate.
  - apply bind_ret_returns in H1 as [a H1]. unfold Deferred_reject in *.
    assert (Hf : false = true -> exists p, heap s !! r = Some p /\
                   status p = rejected /\ value p = arg 0 args)
      by discriminate.
    pose proof (wp_returns _ _ _ _ _ _ (abandon_evolves _ K r _ false s Hf) H1)
      as [_ Hs].
    unfold abandon, bind, read in H1.
    destruct (heap s !! r) as [p |] eqn:Hp; [| discriminate].
    destruct (negb (strict_equal (status p) waiting) && negb false) eqn:G;
      [discriminate |].
    destruct (Hs p eq_refl G) as (p' & Hp' & Hst).
    unfold bind. erewrite abandon_guard; eauto.
    rewrite Hst. discriminate.
Qed.

Lemma second_call_is_usage_error_witness :
  call_fuel sample 2 (VBound Mthen 0) (VPromise 0) [VClient 0]
    (mkState [mkPromise (VNum 5) resolved VUndefined VUndefined None] []) =
  Returns (VPromise 1)
    (mkState
       [ mkPromise (VNum 5) resolved (VClient 0) VUndefined (Some 1);
         mkPromise VUndefined waiting VUndefined VUndefined None ]
       [ Invoked 0 (VPromise 0) [VNum 5] ]) /\
  call_fuel sample 1 (VBound Mthen 0) (VPromise 0) [VClient 1]
    (mkState
       [ mkPromise (VNum 5) resolved (VClient 0) VUndefined (Some 1);
         mkPromise VUndefined waiting VUndefined VUndefined None ]
       [ Invoked 0 (VPromise 0) [VNum 5] ]) =
  Throws (VError "Tried to then a promise twice.")
    (mkState
       [ mkPromise (VNum 5) resolved (VClient 0) VUndefined (Some 1);
         mkPromise VUndefined waiting VUndefined VUndefined None ]
       [ Invoked 0 (VPromise 0) [VNum 5] ]).
Proof.
  split; [reflexivity |].
  exact (second_call_is_usage_error sample 2 0 Mthen 0 (VPromise 0)
           [VClient 0] (VPromise 0) [VClient 1]
           (mkState [mkPromise (VNum 5) resolved VUndefined VUndefined None] [])
           (VPromise 1) _ eq_refl (fun _ => eq_refl)).
Defined.

(** ** The callback adapter *)

Lemma final_state_void {A} (o : outcome A) : final_state (void o) = final_state o.
Proof. destruct o; reflexivity. Qed.

Lemma node_callback_fires client n d this err data s :
  void (call_fuel client (S (S n)) (node_callback d) this [err; data] s) =
  if truthy err
  then Deferred_reject (call_fuel client n) d err s
  else Deferred_resolve (call_fuel client n) d data s.
Proof.
  unfold node_callback.
  change (call_fuel client (S (S n)) (VFailableCb ?e ?k) this [err; data])
    with (failable_cb (call_fuel client (S n)) e k err data).
  unfold failable_cb. rewrite bind_ret_void.
  destruct (truthy err).
  - change (call_fuel client (S n) (VBound Mreject d) VUndefined [err])
      with (Deferred_reject (call_fuel client n) d err ;; ret VUndefined).
    rewrite bind_ret_void. apply void_unit.
  - change (call_fuel client (S n) (VBound Mresolve d) VUndefined [data])
      with (Deferred_resolve (call_fuel client n) d data ;; ret VUndefined).
    rewrite bind_ret_void. apply void_unit.
Qed.

(** The adapter, step by step.  [promisify(fn, context)] returns a
    function; calling it with [args] allocates a waiting promise [d],
    calls [fn] with receiver [context] and arguments [args] followed by
    one callback, and then returns the promise [d]: as soon as the call
    of [fn] returns, whether or not the callback has been called by then
    (the library has no try/catch, so what [fn] throws is thrown on).
    Calling the callback with [(err, data)] is [reject(err)] on [d]'s
    deferred when [err] is truthy and [resolve(data)] otherwise; on a
    promise still waiting this leaves it rejected, respectively resolved,
    however the call ends. *)
Theorem promisified_function client n nodeStyle context this args s :
  call_fuel client (S n) (VFun Fpromisify) this [nodeStyle; context] s =
    Returns (VPromisified nodeStyle context) s /\
  call_fuel client (S n) (VPromisified nodeStyle context) this args s =
    (call_fuel client n nodeStyle context
       (args ++ [node_callback (length (heap s))]) ;;
     ret (VPromise (length (heap s)))) (deferred_in s) /\
  heap (deferred_in s) !! length (heap s) =
    Some (mkPromise VUndefined waiting VUndefined VUndefined None) /\
  (forall v s',
     call_fuel client n nodeStyle context
       (args ++ [node_callback (length (heap s))]) (deferred_in s) =
       Returns v s' ->
     call_fuel client (S n) (VPromisified nodeStyle context) this args s =
       Returns (VPromise (length (heap s))) s') /\
  (forall this' err data s2,
     void (call_fuel client (S (S n)) (node_callback (length (heap s)))
             this' [err; data] s2) =
     if truthy err
     then Deferred_reject (call_fuel client n) (length (heap s)) err s2
     else Deferred_resolve (call_fuel client n) (length (heap s)) data s2) /\
  (forall this' err data s2 s3 p,
     heap s2 !! length (heap s) = Some p ->
     status p = waiting ->
     final_state (call_fuel client (S (S n)) (node_callback (length (heap s)))
                    this' [err; data] s2) = Some s3 ->
     exists p3, heap s3 !! length (heap s) = Some p3 /\
                status p3 = if truthy err then rejected else resolved).
Proof.
  assert (Body :
    call_fuel client (S n) (VPromisified nodeStyle context) this args s =
    (call_fuel client n nodeStyle context
       (args ++ [node_callback (length (heap s))]) ;;
     ret (VPromise (length (heap s)))) (deferred_in s)).
  { simpl. unfold promisified, failable, defer, Promise_new, bind, alloc.
    simpl. fold (deferred_in s). fold (node_callback (length (heap s))).
    destruct (call_fuel client n nodeStyle context _ (deferred_in s));
      reflexivity. }
  repeat split.
  - exact Body.
  - unfold deferred_in. simpl. rewrite lookup_app_r by lia.
    now rewrite Nat.sub_diag.
  - intros v s' Hfn. rewrite Body. unfold bind. now rewrite Hfn.
  - intros. apply node_callback_fires.
  - intros this' err data s2 s3 p Hp Hw Hfin.
    rewrite <- final_state_void, node_callback_fires in Hfin.
    pose proof (call_fuel_keeps client n) as K.
    assert (G : negb (strict_equal (status p) waiting) && negb false = false).
    { rewrite Hw. reflexivity. }
    destruct (truthy err).
    + revert s3 Hfin. apply wp_final.
      eapply wp_conseq;
        [apply (abandon_evolves _ K); discriminate | |]; simpl;
        intros _ s3 [_ Hs]; eauto.
    + revert s3 Hfin. apply wp_final.
      eapply wp_conseq;
        [apply (fulfill_evolves _ K); discriminate | |]; simpl;
        intros _ s3 [_ Hs]; eauto.
Qed.

(** [fn] calls back at once with [(null, 42)]: the promise comes back
    resolved. *)
Example promisified_sync_success :
  call_fuel sample 5 (VPromisified (VClient 4) VNull) VUndefined [] empty =
  Returns (VPromise 0)
    (mkState [mkPromise VUndefined resolved VUndefined VUndefined None]
             [Invoked 4 VNull [node_callback 0]]).
Proof. reflexivity. Qed.

(** [fn] calls back at once with [("fail", undefined)]: the promise comes
    back rejected. *)
Example promisified_sync_failure :
  call_fuel sample 5 (VPromisified (VClient 5) VNull) VUndefined [] empty =
  Returns (VPromise 0)
    (mkState [mkPromise VUndefined rejected VUndefined VUndefined None]
             [Invoked 5 VNull [node_callback 0]]).
Proof. reflexivity. Qed.

(** [fn] keeps the callback; the promise comes back waiting, a continuation
    is registered, and when the callback fires with [(null, 42)] the
    continuation receives [42]. *)
Example promisified_async_success :
  run (call_fuel sample 5)
    (Invoke (VPromisified (VClient 6) VNull) VUndefined [VStr "path"] (fun q =>
     Invoke (get_then q) q [VClient 0] (fun _ =>
     Invoke (node_callback 0) VUndefined [VNull; VNum 42] (fun _ =>
     Ret q)))) empty =
  Returns (VPromise 0)
    (mkState
       [ mkPromise (VNum 42) resolved (VClient 0) VUndefined (Some 1);
         mkPromise VUndefined waiting VUndefined VUndefined None ]
       [ Invoked 6 VNull [VStr "path"; node_callback 0];
         Invoked 0 (VPromise 0) [VNum 42] ]).
Proof. reflexivity. Qed.

(** The same with a failure: a [catch] callback registered before the
    callback fires with [("fail", undefined)] receives ["fail"]. *)
Example promisified_async_failure :
  run (call_fuel sample 5)
    (Invoke (VPromisified (VClient 6) VNull) VUndefined [VStr "path"] (fun q =>
     Invoke (get_catch q) q [VClient 3] (fun _ =>
     Invoke (node_callback 0) VUndefined [VStr "fail"; VUndefined] (fun _ =>
     Ret q)))) empty =
  Returns (VPromise 0)
    (mkState
       [ mkPromise (VStr "fail") rejected VUndefined (VClient 3) None ]
       [ Invoked 6 VNull [VStr "path"; node_callback 0];
         Invoked 3 (VPromise 0) [VStr "fail"] ]).
Proof. reflexivity. Qed.

(** ** Status tags and values *)

Lemma catch_registers call r failure s p :
  heap s !! r = Some p -> truthy (onFail p) = false ->
  strict_equal (status p) rejected = false ->
  catch call r failure s =
  Returns tt (mkState (<[r := set_onFail failure p]> (heap s)) (calls s)).
Proof.
  intros Hp Hf Hr. unfold catch, bind, read, write.
  rewrite Hp, Hf. simpl. rewrite Hp. simpl.
  rewrite (lookup_write _ _ _ _ Hp). simpl. now rewrite Hr.
Qed.



(** ** Registration with a falsy callback *)

Lemma insert_app_fresh (h : list Promise) r p q x :
  h !! r = Some p -> <[r := q]> (h ++ [x]) = <[r := q]> h ++ [x].
Proof.
  intros Hp. apply insert_app_l. eapply lookup_lt_Some; eauto.
Qed.

(** [then] on a promise that is not resolved, without a failure callback:
    the callback and a fresh [next] are stored, nothing is called. *)
Lemma then_registers call r success failure s p :
  heap s !! r = Some p -> truthy (owed p) = false ->
  strict_equal (status p) resolved = false -> truthy failure = false ->
  then_ call r success failure s =
  Returns (VPromise (length (heap s)))
    (mkState (<[r := set_next (length (heap s)) (set_owed success p)]> (heap s)
              ++ [mkPromise VUndefined waiting VUndefined VUndefined None])
             (calls s)).
Proof.
  intros Hp Ho Hr Hf.
  assert (Hlt : r < length (heap s)) by (eapply lookup_lt_Some; eauto).
  unfold then_, defer, Promise_new, bind, read, write, alloc, when, ret.
  rewrite Hp, Ho. simpl. rewrite Hp. simpl.
  rewrite lookup_app_l by (rewrite length_insert; auto).
  rewrite (lookup_write _ _ _ _ Hp). simpl.
  rewrite length_insert.
  rewrite (insert_app_fresh _ _ (set_owed success p)),  insert_twice
    by (eapply lookup_write; eauto).
  rewrite lookup_app_l by (rewrite length_insert; auto).
  rewrite (lookup_write _ _ _ _ Hp). simpl.
  rewrite Hr, Hf. simpl.
  rewrite lookup_app_l by (rewrite length_insert; auto).
  rewrite (lookup_write _ _ _ _ Hp). simpl. reflexivity.
Qed.

(** C9.  The single-registration guards look at the stored callback, not
    at whether a registration took place: after [then(g)] with a falsy
    [g] on a waiting promise, a second [then(g2)] does not throw; it
    replaces the stored callback by [g2] and [next] by a second fresh
    deferred.  Likewise after [catch(g)] with a falsy [g], [catch(g2)]
    stores [g2]. *)
Theorem falsy_registration_is_not_guarded call s r p g g2 :
  heap s !! r = Some p ->
  status p = waiting ->
  truthy (owed p) = false ->
  truthy (onFail p) = false ->
  truthy g = false ->
  let fresh := mkPromise VUndefined waiting VUndefined VUndefined None in
  let n := length (heap s) in
  let s1 := mkState (<[r := set_next n (set_owed g p)]> (heap s) ++ [fresh])
                    (calls s) in
  let s2 := mkState (<[r := set_next (S n) (set_owed g2 p)]> (heap s)
                     ++ [fresh; fresh]) (calls s) in
  let c1 := mkState (<[r := set_onFail g p]> (heap s)) (calls s) in
  let c2 := mkState (<[r := set_onFail g2 p]> (heap s)) (calls s) in
  (then_ call r g VUndefined s = Returns (VPromise n) s1 /\
   then_ call r g2 VUndefined s1 = Returns (VPromise (S n)) s2) /\
  (catch call r g s = Returns tt c1 /\
   catch call r g2 c1 = Returns tt c2).
Proof.
  intros Hp Hs Ho Hf Hg fresh n s1 s2 c1 c2.
  assert (Hlt : r < length (heap s)) by (eapply lookup_lt_Some; eauto).
  assert (R1 : strict_equal (status p) resolved = false)
    by (rewrite Hs; reflexivity).
  assert (R2 : strict_equal (status p) rejected = false)
    by (rewrite Hs; reflexivity).
  split; split.
  - apply then_registers; auto.
  - assert (L1 : heap s1 !! r = Some (set_next n (set_owed g p))).
    { unfold s1. simpl.
      rewrite lookup_app_l by (rewrite length_insert; auto).
      eapply lookup_write; eauto. }
    rewrite (then_registers call r g2 VUndefined s1 _ L1 Hg R1 eq_refl).
    unfold s1, s2. simpl. rewrite length_app, length_insert. simpl.
    replace (length (heap s) + 1) with (S n) by (unfold n; lia).
    rewrite insert_app_l by (rewrite length_insert; auto).
    rewrite insert_twice, <- app_assoc. reflexivity.
  - apply catch_registers; auto.
  - assert (L1 : heap c1 !! r = Some (set_onFail g p)).
    { unfold c1. simpl. eapply lookup_write; eauto. }
    rewrite (catch_registers call r g2 c1 _ L1 Hg R2).
    unfold c1, c2. simpl. now rewrite insert_twice.
Qed.

Lemma falsy_registration_is_not_guarded_witness :
  then_ (call_fuel sample 1) 0 VUndefined VUndefined
    (mkState [mkPromise VUndefined waiting VUndefined VUndefined None] []) =
  Returns (VPromise 1)
    (mkState
       [ mkPromise VUndefined waiting VUndefined VUndefined (Some 1);
         mkPromise VUndefined waiting VUndefined VUndefined None ] []) /\
  then_ (call_fuel sample 1) 0 (VClient 0) VUndefined
    (mkState
       [ mkPromise VUndefined waiting VUndefined VUndefined (Some 1);
         mkPromise VUndefined waiting VUndefined VUndefined None ] []) =
  Returns (VPromise 2)
    (mkState
       [ mkPromise VUndefined waiting (VClient 0) VUndefined (Some 2);
         mkPromise VUndefined waiting VUndefined VUndefined None;
         mkPromise VUndefined waiting VUndefined VUndefined None ] []).
Proof.
  exact (proj1
    (falsy_registration_is_not_guarded (call_fuel sample 1)
       (mkState [mkPromise VUndefined waiting VUndefined VUndefined None] [])
       0 (mkPromise VUndefined waiting VUndefined VUndefined None)
       VUndefined (VClient 0) eq_refl eq_refl eq_refl eq_refl eq_refl)).
Defined.

(** ** Success forwarding and late registration, on the code *)

(** C1.  What [fulfill] does when the success callback returns a value
    that is not a promise: past the guard it calls the callback at once
    with the data, stores what the callback returned as the value of the
    promise, and stops.  The state it leaves is the one the callback left
    with that one field written: [next] is not resolved, so a continuation
    registered on it is never called. *)
Theorem plain_result_is_not_forwarded call this data force s p v s1 p1 :
  heap s !! this = Some p ->
  negb (strict_equal (status p) waiting) && negb force = false ->
  truthy (owed p) = true ->
  call (owed p) (VPromise this) [data]
       (mkState (<[this := set_status resolved p]> (heap s)) (calls s)) =
    Returns v s1 ->
  heap s1 !! this = Some p1 ->
  truthy v && truthy (get_then v) = false ->
  fulfill call this data force s =
    Returns tt (mkState (<[this := set_value v p1]> (heap s1)) (calls s1)) /\
  (forall d, d <> this ->
     <[this := set_value v p1]> (heap s1) !! d = heap s1 !! d).
Proof.
  intros Hp Hg Ho Hc Hp1 Hv. split.
  - unfold fulfill, bind, read, write.
    rewrite Hp, Hg. simpl. rewrite Hp. simpl.
    rewrite (lookup_write _ _ _ _ Hp). simpl. rewrite Ho, Hc.
    rewrite Hp1. simpl. rewrite (lookup_write _ _ _ _ Hp1). simpl.
    now rewrite Hv.
  - intros d Hd. now apply list_lookup_insert_ne.
Qed.

Lemma plain_result_is_not_forwarded_witness :
  fulfill (call_fuel sample 3) 0 (VNum 1) false
    (mkState
       [ mkPromise VUndefined waiting (VClient 1) VUndefined (Some 1);
         mkPromise VUndefined waiting (VClient 0) VUndefined (Some 2);
         mkPromise VUndefined waiting VUndefined VUndefined None ] []) =
  Returns tt
    (mkState
       [ mkPromise (VNum 2) resolved (VClient 1) VUndefined (Some 1);
         mkPromise VUndefined waiting (VClient 0) VUndefined (Some 2);
         mkPromise VUndefined waiting VUndefined VUndefined None ]
       [ Invoked 1 (VPromise 0) [VNum 1] ]).
Proof.
  exact (proj1
    (plain_result_is_not_forwarded (call_fuel sample 3) 0 (VNum 1) false
       (mkState
          [ mkPromise VUndefined waiting (VClient 1) VUndefined (Some 1);
            mkPromise VUndefined waiting (VClient 0) VUndefined (Some 2);
            mkPromise VUndefined waiting VUndefined VUndefined None ] [])
       (mkPromise VUndefined waiting (VClient 1) VUndefined (Some 1))
       (VNum 2) _
       (mkPromise VUndefined resolved (VClient 1) VUndefined (Some 1))
       eq_refl eq_refl eq_refl eq_refl eq_refl eq_refl)).
Defined.

(** The two chains of the specification, run from the empty state: the
    last callback [x => x] (client function 0) is never called, and the
    promise it was registered on is still waiting. *)
Example chain_plain_stalls :
  run (call_fuel sample 6) chain_plain empty =
  Returns (VPromise 1)
    (mkState
       [ mkPromise (VNum 2) resolved (VClient 1) VUndefined (Some 1);
         mkPromise VUndefined waiting (VClient 0) VUndefined (Some 2);
         mkPromise VUndefined waiting VUndefined VUndefined None ]
       [ Invoked 1 (VPromise 0) [VNum 1] ]).
Proof. reflexivity. Qed.

Example chain_nested_stalls :
  run (call_fuel sample 6) chain_nested empty =
  Returns (VPromise 1)
    (mkState
       [ mkPromise (VPromise 4) resolved (VClient 2) VUndefined (Some 1);
         mkPromise VUndefined waiting (VClient 0) VUndefined (Some 2);
         mkPromise VUndefined waiting VUndefined VUndefined None;
         mkPromise (VNum 2) resolved (VClient 1) VUndefined (Some 4);
         mkPromise VUndefined waiting (VBound Mresolve 1) (VBound Mreject 1)
                   (Some 5);
         mkPromise VUndefined waiting VUndefined VUndefined None ]
       [ Invoked 2 (VPromise 0) [VUndefined];
         Invoked 1 (VPromise 3) [VNum 1] ]).
Proof. reflexivity. Qed.

(** Where forwarding does work: the callback returns a promise, and when
    that promise is resolved with 9 the [next] promise is resolved with 9
    and its continuation is called with it. *)
Example chain_future_forwards :
  run (call_fuel sample 6) chain_future empty =
  Returns (VPromise 1)
    (mkState
       [ mkPromise (VPromise 3) resolved (VClient 7) VUndefined (Some 1);
         mkPromise (VNum 9) resolved (VClient 0) VUndefined (Some 2);
         mkPromise VUndefined waiting VUndefined VUndefined None;
         mkPromise VUndefined resolved (VBound Mresolve 1) (VBound Mreject 1)
                   (Some 4);
         mkPromise VUndefined waiting VUndefined VUndefined None ]
       [ Invoked 7 (VPromise 0) [VUndefined];
         Invoked 0 (VPromise 1) [VNum 9] ]).
Proof. reflexivity. Qed.

(** C2.  Late registration against early registration, on the code.  A
    promise resolved with 5 through its deferred before [then] is called
    hands [undefined] to the callback, where the early order hands it 5;
    and [then] called on a promise already rejected leaves its [next]
    waiting, so a [catch] further down is never called, where the early
    order calls it with the error. *)
Theorem late_registration_differs :
  (run (call_fuel sample 6) late_then empty =
     Returns (VPromise 1)
       (mkState
          [ mkPromise VUndefined resolved (VClient 0) VUndefined (Some 1);
            mkPromise VUndefined waiting VUndefined VUndefined None ]
          [ Invoked 0 (VPromise 0) [VUndefined] ]) /\
   run (call_fuel sample 6) early_then empty =
     Returns (VPromise 1)
       (mkState
          [ mkPromise (VNum 5) resolved (VClient 0) VUndefined (Some 1);
            mkPromise VUndefined waiting VUndefined VUndefined None ]
          [ Invoked 0 (VPromise 0) [VNum 5] ])) /\
  (run (call_fuel sample 6) late_then_rejected empty =
     Returns (VPromise 1)
       (mkState
          [ mkPromise (VStr "boom") rejected (VClient 0) VUndefined (Some 1);
            mkPromise VUndefined waiting VUndefined (VClient 3) None ]
          []) /\
   run (call_fuel sample 6) early_then_rejected empty =
     Returns (VPromise 1)
       (mkState
          [ mkPromise VUndefined rejected (VClient 0) VUndefined (Some 1);
            mkPromise (VStr "boom") rejected VUndefined (VClient 3) None ]
          [ Invoked 3 (VPromise 1) [VStr "boom"] ])).
Proof. repeat split. Qed.

(** Where late registration does work: on the promises that [resolved]
    and [rejected] build, which carry their value from the start. *)
Example resolved_then_gets_value (v : val) :
  truthy v && truthy (get_then v) = false ->
  run (call_fuel sample 6)
    (Invoke (VFun Fresolved) VUndefined [v] (fun f =>
     Invoke (get_then f) f [VClient 0] (fun q => Ret q))) empty =
  Returns (VPromise 1)
    (mkState
       [ mkPromise v resolved (VClient 0) VUndefined (Some 1);
         mkPromise VUndefined waiting VUndefined VUndefined None ]
       [ Invoked 0 (VPromise 0) [v] ]).
Proof.
  intros Hv.
  destruct v as [| | [|] | [| n | n] | [| c t] | | | | | | | | |];
    try reflexivity; discriminate Hv.
Qed.

Example rejected_catch_gets_error (e : val) :
  run (call_fuel sample 6)
    (Invoke (VFun Frejected) VUndefined [e] (fun f =>
     Invoke (get_catch f) f [VClient 3] (fun _ => Ret f))) empty =
  Returns (VPromise 0)
    (mkState [ mkPromise e rejected VUndefined (VClient 3) None ]
             [ Invoked 3 (VPromise 0) [e] ]).
Proof. reflexivity. Qed.

(** * Further properties of the library *)

(** ** Preserved relations, in general *)
Section Preserved.

Variable R : state -> state -> Prop.
Hypothesis R_refl : forall s, R s s.
Hypothesis R_trans : forall s1 s2 s3, R s1 s2 -> R s2 s3 -> R s1 s3.

Lemma preserves_wp {A} (m : M A) s0 s (Q : A -> state -> Prop) E :
  preserves R m -> R s0 s ->
  (forall a s', R s0 s' -> Q a s') ->
  (forall e s', R s0 s' -> E e s') ->
  wp m s Q E.
Proof.
  intros K H0 HQ HE. eapply wp_conseq; [apply K | |]; simpl; eauto.
Qed.

Lemma preserves_ret {A} (a : A) : preserves R (ret a).
Proof. intros s. apply wp_ret, R_refl. Qed.

Lemma preserves_throw {A} e : preserves R (@throw A e).
Proof. intros s. apply wp_throw, R_refl. Qed.

Lemma preserves_read r : preserves R (read r).
Proof. intros s. apply wp_read. intros. apply R_refl. Qed.

Lemma preserves_bind {A B} (m : M A) (k : A -> M B) :
  preserves R m -> (forall a, preserves R (k a)) -> preserves R (bind m k).
Proof.
  intros Km Kk s. apply wp_bind.
  eapply preserves_wp; eauto.
  intros a s' H. eapply preserves_wp; eauto.
Qed.

Lemma preserves_try {A} (m : M A) h :
  preserves R m -> (forall e, preserves R (h e)) -> preserves R (try_catch m h).
Proof.
  intros Km Kh s. apply wp_try.
  eapply preserves_wp; eauto.
  intros e s' H. eapply preserves_wp; eauto.
Qed.

Lemma preserves_when b (m : M unit) :
  preserves R m -> preserves R (when b m).
Proof. intros K. destruct b; simpl; auto using preserves_ret. Qed.

End Preserved.

(** ** Stored links are kept *)

Lemma link_stable_refl p : link_stable p p.
Proof. intros _. auto. Qed.

Lemma linked_refl s : linked s s.
Proof. intros r p H. exists p. split; auto using link_stable_refl. Qed.

Lemma linked_trans s1 s2 s3 : linked s1 s2 -> linked s2 s3 -> linked s1 s3.
Proof.
  intros H12 H23 r p H.
  destruct (H12 r p H) as (q & Hq & L1).
  destruct (H23 r q Hq) as (t & Ht & L2).
  exists t. split; auto. intros T.
  destruct (L1 T) as [O1 N1].
  assert (T2 : truthy (owed q) = true) by now rewrite O1.
  destruct (L2 T2) as [O2 N2].
  split; congruence.
Qed.

Lemma linked_write s r p q :
  heap s !! r = Some p -> link_stable p q ->
  linked s (mkState (<[r := q]> (heap s)) (calls s)).
Proof.
  intros Hr Hs r' p' H'. simpl.
  destruct (decide (r = r')) as [<- | Hne].
  - same_lookup. exists q. split; [eapply lookup_write; eauto | assumption].
  - exists p'. split; auto using link_stable_refl.
    rewrite list_lookup_insert_ne; auto.
Qed.

Lemma preserves_linked_write r f :
  link_neutral f -> preserves linked (write r f).
Proof.
  intros N s. apply wp_write. intros p Hp.
  eapply linked_write; eauto. intros _. apply N.
Qed.

Lemma preserves_linked_alloc p : preserves linked (alloc p).
Proof.
  intros s. apply wp_alloc. intros r q H.
  exists q. split; auto using link_stable_refl.
  simpl. rewrite lookup_app_l; auto. eapply lookup_lt_Some; eauto.
Qed.

Lemma preserves_linked_record e : preserves linked (record e).
Proof.
  intros s r q H. exists q. split; auto using link_stable_refl.
Qed.

Lemma set_status_neutral v : link_neutral (set_status v).
Proof. intros p. auto. Qed.

Lemma set_value_neutral v : link_neutral (set_value v).
Proof. intros p. auto. Qed.

Lemma set_onFail_neutral v : link_neutral (set_onFail v).
Proof. intros p. auto. Qed.

Section Linked.

Variable call : val -> val -> list val -> M val.
Hypothesis call_linked : forall f this args, preserves linked (call f this args).

Ltac linked_steps :=
  repeat first
    [ apply (preserves_ret linked linked_refl)
    | apply (preserves_throw linked linked_refl)
    | apply call_linked
    | apply preserves_linked_write;
        solve [auto using set_status_neutral, set_value_neutral,
                          set_onFail_neutral]
    | apply (preserves_read linked linked_refl)
    | apply (preserves_bind linked linked_refl linked_trans); [ | intros ? ]
    | match goal with
      | |- preserves _ (if ?b then _ else _) => destruct b
      | |- preserves _ (match ?o with Some _ => _ | None => _ end) => destruct o
      end ].

Lemma abandon_linked this error force :
  preserves linked (abandon call this error force).
Proof. unfold abandon. linked_steps. Qed.

Lemma catch_linked this failure : preserves linked (catch call this failure).
Proof.
  unfold catch. linked_steps.
Qed.

Lemma fulfill_linked this data force :
  preserves linked (fulfill call this data force).
Proof. unfold fulfill. linked_steps. Qed.

(** [then] stores a callback and a [next] only where no callback was. *)
Lemma then_linked this success failure :
  preserves linked (then_ call this success failure).
Proof.
  intros s. unfold then_, defer, Promise_new.
  apply wp_bind, wp_read. intros p Hp.
  destruct (truthy (owed p)) eqn:O.
  { apply wp_throw, linked_refl. }
  apply wp_bind, wp_write. intros p0 Hp0. same_lookup.
  apply wp_bind, wp_alloc. simpl.
  apply wp_bind, wp_write. simpl. intros p1 Hp1.
  assert (Hlt : this < length (heap s)) by (eapply lookup_lt_Some; eauto).
  rewrite lookup_app_l in Hp1 by (rewrite length_insert; auto).
  same_lookup.
  match goal with |- wp _ ?s1 _ _ => set (s1' := s1) end.
  assert (Ev : linked s s1').
  { intros r q Hq. simpl.
    assert (r < length (heap s)) by (eapply lookup_lt_Some; eauto).
    destruct (decide (r = this)) as [-> | Hne].
    - rewrite Hp in Hq. injection Hq as <-.
      eexists. split.
      + apply list_lookup_insert_eq. rewrite length_app, length_insert. lia.
      + intros T. rewrite O in T. discriminate.
    - exists q. split; auto using link_stable_refl.
      rewrite list_lookup_insert_ne by auto.
      rewrite lookup_app_l by (rewrite length_insert; auto).
      rewrite list_lookup_insert_ne by auto. auto. }
  clearbody s1'.
  eapply (preserves_wp linked linked_trans); eauto.
  apply (preserves_bind linked linked_refl linked_trans);
    [apply (preserves_read linked linked_refl) | intros p2].
  apply (preserves_bind linked linked_refl linked_trans).
  { apply (preserves_when linked linked_refl), fulfill_linked. }
  intros _.
  apply (preserves_bind linked linked_refl linked_trans).
  { apply (preserves_when linked linked_refl), catch_linked. }
  intros _. linked_steps.
Qed.

Variable client : nat -> val -> list val -> prog.

Lemma run_linked (c : prog) : preserves linked (run call c).
Proof.
  induction c as [v | e | f this args k IH | body IHb handler IHh k IHk]; simpl.
  - apply (preserves_ret linked linked_refl).
  - apply (preserves_throw linked linked_refl).
  - apply (preserves_bind linked linked_refl linked_trans); auto.
  - apply (preserves_bind linked linked_refl linked_trans); auto.
    apply (preserves_try linked linked_refl linked_trans); auto.
Qed.

Lemma apply_function_linked f this args :
  preserves linked (apply_function client call f this args).
Proof.
  destruct f; simpl; try apply (preserves_throw linked linked_refl).
  - destruct m.
    + apply then_linked.
    + apply (preserves_bind linked linked_refl linked_trans);
        [apply catch_linked | intros ?; linked_steps].
    + apply (preserves_bind linked linked_refl linked_trans);
        [apply fulfill_linked | intros ?; linked_steps].
    + apply (preserves_bind linked linked_refl linked_trans);
        [apply abandon_linked | intros ?; linked_steps].
  - destruct f; unfold defer, promisify, resolved_fn, rejected_fn, Promise_new;
      repeat (apply (preserves_bind linked linked_refl linked_trans);
              [| intros ?]);
      auto using preserves_linked_alloc;
      apply (preserves_ret linked linked_refl).
  - unfold failable_cb. linked_steps.
  - unfold promisified, failable, defer, Promise_new.
    repeat (apply (preserves_bind linked linked_refl linked_trans);
            [| intros ?]);
      auto using preserves_linked_alloc;
      apply (preserves_ret linked linked_refl).
  - apply (preserves_bind linked linked_refl linked_trans);
      [apply preserves_linked_record | intros ?; apply run_linked].
Qed.

End Linked.

Lemma call_fuel_linked client fuel f this args :
  preserves linked (call_fuel client fuel f this args).
Proof.
  revert f this args. induction fuel as [| n IH]; intros f this args.
  - intros s. exact I.
  - simpl. apply apply_function_linked. exact IH.
Qed.

(** ** What stays once it is set *)

Lemma call_fuel_links client fuel f this args s s' :
  final_state (call_fuel client fuel f this args s) = Some s' -> linked s s'.
Proof. apply wp_final. apply call_fuel_linked. Qed.

(** X4.  Registration is permanent: across any call of any function value,
    whatever the callbacks do, a promise that holds a success callback
    still holds the same one and the same [next], and a promise that holds
    a failure callback still holds the same one. *)
Theorem registration_is_permanent client fuel f this args s s' r p :
  final_state (call_fuel client fuel f this args s) = Some s' ->
  heap s !! r = Some p ->
  exists p', heap s' !! r = Some p' /\
    (truthy (owed p) = true -> owed p' = owed p /\ next p' = next p) /\
    (truthy (onFail p) = true -> onFail p' = onFail p).
Proof.
  intros Hfin Hp.
  destruct (call_fuel_evolves _ _ _ _ _ _ _ Hfin r p Hp)
    as (p' & Hp' & _ & _ & F & _).
  destruct (call_fuel_links _ _ _ _ _ _ _ Hfin r p Hp) as (q & Hq & L).
  same_lookup. exists p'. auto.
Qed.

Lemma registration_is_permanent_witness :
  final_state (call_fuel sample 3 (VBound Mreject 0) (VDeferred 0)
                 [VStr "boom"] (mkState boom_heap [])) =
    Some (mkState
       [ mkPromise VUndefined rejected (VClient 0) VUndefined (Some 1);
         mkPromise (VStr "boom") rejected VUndefined (VClient 3) None ]
       [ Invoked 3 (VPromise 1) [VStr "boom"] ]) /\
  exists p',
    [ mkPromise VUndefined rejected (VClient 0) VUndefined (Some 1);
      mkPromise (VStr "boom") rejected VUndefined (VClient 3) None ] !! 0
      = Some p' /\
    (true = true -> owed p' = VClient 0 /\ next p' = Some 1) /\
    (false = true -> onFail p' = VUndefined).
Proof.
  split; [reflexivity |].
  exact (registration_is_permanent sample 3 (VBound Mreject 0) (VDeferred 0)
           [VStr "boom"] (mkState boom_heap []) _ 0
           (mkPromise VUndefined waiting (VClient 0) VUndefined (Some 1))
           eq_refl eq_refl).
Defined.

(** X3.  The error of a rejected promise is frozen for clients that keep
    to the documented surface, that is, whose callbacks act on the library
    only by calling [then], [catch], [resolve], [reject] and the four
    exported functions (not a promise's own [fulfill] or [abandon], and
    not by assigning its fields): across any such call, a promise that is
    rejected stays rejected with the same value. *)
Theorem rejected_value_is_frozen client fuel f this args s s' r p :
  final_state (call_fuel client fuel f this args s) = Some s' ->
  heap s !! r = Some p ->
  status p = rejected ->
  exists p', heap s' !! r = Some p' /\
             status p' = rejected /\ value p' = value p.
Proof.
  intros Hfin Hp Hr.
  destruct (call_fuel_evolves _ _ _ _ _ _ _ Hfin r p Hp)
    as (p' & Hp' & St & _ & _ & V).
  exists p'. repeat split; auto.
  rewrite <- Hr. apply status_step_terminal; auto.
  rewrite Hr. discriminate.
Qed.

Lemma rejected_value_is_frozen_witness :
  final_state (call_fuel sample 3 (VBound Mcatch 0) (VPromise 0) [VClient 3]
     (mkState [mkPromise (VStr "boom") rejected VUndefined VUndefined None] []))
  = Some (mkState
       [mkPromise (VStr "boom") rejected VUndefined (VClient 3) None]
       [Invoked 3 (VPromise 0) [VStr "boom"]]) /\
  exists p',
    [mkPromise (VStr "boom") rejected VUndefined (VClient 3) None] !! 0
      = Some p' /\
    status p' = rejected /\ value p' = VStr "boom".
Proof.
  split; [reflexivity |].
  exact (rejected_value_is_frozen sample 3 (VBound Mcatch 0) (VPromise 0)
           [VClient 3]
           (mkState [mkPromise (VStr "boom") rejected VUndefined VUndefined None]
                    [])
           _ 0 (mkPromise (VStr "boom") rejected VUndefined VUndefined None)
           eq_refl eq_refl eq_refl).
Defined.

(** ** Settling *)

Lemma final_state_bind_ret {A B} (m : M A) (b : B) s :
  final_state (bind m (fun _ => ret b) s) = final_state (m s).
Proof. unfold bind, ret. destruct (m s); reflexivity. Qed.

Lemma fulfill_leaves_terminal client n r data s s1 :
  final_state (fulfill (call_fuel client n) r data false s) = Some s1 ->
  exists p1, heap s1 !! r = Some p1 /\ status p1 <> waiting.
Proof.
  intros Hfin.
  assert (Hf : false = true -> exists p, heap s !! r = Some p /\
                                         status p = resolved) by discriminate.
  pose proof (wp_final _ _ _
    (fulfill_evolves _ (call_fuel_keeps client n) r data false s Hf) _ Hfin)
    as [Ev Hs].
  destruct (heap s !! r) as [p |] eqn:Hp.
  - destruct (strict_equal (status p) waiting) eqn:W.
    + destruct (Hs p eq_refl) as (p1 & Hp1 & S1); [now rewrite W |].
      exists p1. split; auto. rewrite S1. discriminate.
    + assert (Hw : status p <> waiting).
      { intros E. apply strict_equal_waiting in E. congruence. }
      destruct (evolves_status _ _ _ _ Ev Hp Hw) as (p1 & Hp1 & S1).
      exists p1. split; auto. congruence.
  - unfold fulfill, bind, read in Hfin. rewrite Hp in Hfin. discriminate.
Qed.

Lemma abandon_leaves_terminal client n r error s s1 :
  final_state (abandon (call_fuel client n) r error false s) = Some s1 ->
  exists p1, heap s1 !! r = Some p1 /\ status p1 <> waiting.
Proof.
  intros Hfin.
  assert (Hf : false = true -> exists p, heap s !! r = Some p /\
                 status p = rejected /\ value p = error) by discriminate.
  pose proof (wp_final _ _ _
    (abandon_evolves _ (call_fuel_keeps client n) r error false s Hf) _ Hfin)
    as [Ev Hs].
  destruct (heap s !! r) as [p |] eqn:Hp.
  - destruct (strict_equal (status p) waiting) eqn:W.
    + destruct (Hs p eq_refl) as (p1 & Hp1 & S1); [now rewrite W |].
      exists p1. split; auto. rewrite S1. discriminate.
    + assert (Hw : status p <> waiting).
      { intros E. apply strict_equal_waiting in E. congruence. }
      destruct (evolves_status _ _ _ _ Ev Hp Hw) as (p1 & Hp1 & S1).
      exists p1. split; auto. congruence.
  - unfold abandon, bind, read in Hfin. rewrite Hp in Hfin. discriminate.
Qed.

(** X1.  A deferred settles once, whichever way: when a call of [resolve]
    or [reject] has ended, by returning or by an exception of a callback,
    any further [resolve] or [reject] on the same deferred throws the
    usage error of the method called and leaves the state untouched. *)
Theorem deferred_settles_once
    client n k m m' r this args this' args' s s1 :
  final_state (call_fuel client n (VBound m r) this args s) = Some s1 ->
  m = Mresolve \/ m = Mreject ->
  m' = Mresolve \/ m' = Mreject ->
  call_fuel client (S k) (VBound m' r) this' args' s1 =
  Throws (VError (usage_message m')) s1.
Proof.
  intros Hfin Hm Hm'.
  assert (T : exists p1, heap s1 !! r = Some p1 /\ status p1 <> waiting).
  { destruct n as [| n]; [discriminate |]. simpl in Hfin.
    destruct Hm as [-> | ->]; rewrite final_state_bind_ret in Hfin.
    - eapply fulfill_leaves_terminal; eauto.
    - eapply abandon_leaves_terminal; eauto. }
  destruct T as (p1 & Hp1 & Hw).
  destruct Hm' as [-> | ->]; simpl; unfold bind.
  - unfold Deferred_resolve. erewrite fulfill_guard; eauto.
  - unfold Deferred_reject. erewrite abandon_guard; eauto.
Qed.

Lemma deferred_settles_once_witness :
  final_state (call_fuel sample_throwing 2 (VBound Mresolve 0) (VDeferred 0)
     [VNum 1]
     (mkState [mkPromise VUndefined waiting (VClient 8) VUndefined (Some 1);
               mkPromise VUndefined waiting VUndefined VUndefined None] []))
  = Some (mkState
       [mkPromise VUndefined resolved (VClient 8) VUndefined (Some 1);
        mkPromise VUndefined waiting VUndefined VUndefined None]
       [Invoked 8 (VPromise 0) [VNum 1]]) /\
  call_fuel sample_throwing 1 (VBound Mreject 0) (VDeferred 0) [VStr "late"]
    (mkState
       [mkPromise VUndefined resolved (VClient 8) VUndefined (Some 1);
        mkPromise VUndefined waiting VUndefined VUndefined None]
       [Invoked 8 (VPromise 0) [VNum 1]]) =
  Throws (VError "Tried to abandon a promise twice.")
    (mkState
       [mkPromise VUndefined resolved (VClient 8) VUndefined (Some 1);
        mkPromise VUndefined waiting VUndefined VUndefined None]
       [Invoked 8 (VPromise 0) [VNum 1]]).
Proof.
  split; [reflexivity |].
  exact (deferred_settles_once sample_throwing 2 0 Mresolve Mreject 0
           (VDeferred 0) [VNum 1] (VDeferred 0) [VStr "late"]
           (mkState
              [mkPromise VUndefined waiting (VClient 8) VUndefined (Some 1);
               mkPromise VUndefined waiting VUndefined VUndefined None] [])
           _ eq_refl (or_introl eq_refl) (or_intror eq_refl)).
Defined.

(** X2.  The status is recorded before any callback runs and, for clients
    that keep to the documented surface (callbacks that act on the library
    only by calling [then], [catch], [resolve], [reject] and the four
    exported functions, not a promise's own [fulfill] or [abandon], and
    not by assigning its fields), nothing takes it back: [resolve] on a
    waiting promise leaves it resolved and [reject] leaves it rejected in
    every state the call can end in, also when a callback throws. *)
Theorem settlement_survives_callbacks client n r v s p :
  heap s !! r = Some p ->
  status p = waiting ->
  (forall s', final_state (Deferred_resolve (call_fuel client n) r v s) = Some s' ->
     exists p', heap s' !! r = Some p' /\ status p' = resolved) /\
  (forall s', final_state (Deferred_reject (call_fuel client n) r v s) = Some s' ->
     exists p', heap s' !! r = Some p' /\ status p' = rejected).
Proof.
  intros Hp Hw.
  assert (G : negb (strict_equal (status p) waiting) && negb false = false)
    by (rewrite Hw; reflexivity).
  pose proof (call_fuel_keeps client n) as K.
  split; apply wp_final.
  - eapply wp_conseq;
      [apply (fulfill_evolves _ K); discriminate | |]; simpl;
      intros _ s' [_ Hs]; eauto.
  - eapply wp_conseq;
      [apply (abandon_evolves _ K); discriminate | |]; simpl;
      intros _ s' [_ Hs]; eauto.
Qed.

Lemma settlement_survives_callbacks_witness :
  status (mkPromise VUndefined waiting (VClient 8) VUndefined (Some 1)) =
    waiting /\
  forall s',
    final_state (Deferred_resolve (call_fuel sample_throwing 1) 0 (VNum 1)
      (mkState [mkPromise VUndefined waiting (VClient 8) VUndefined (Some 1);
                mkPromise VUndefined waiting VUndefined VUndefined None] []))
    = Some s' ->
    exists p', heap s' !! 0 = Some p' /\ status p' = resolved.
Proof.
  split; [reflexivity |].
  exact (proj1 (settlement_survives_callbacks sample_throwing 1 0 (VNum 1)
    (mkState [mkPromise VUndefined waiting (VClient 8) VUndefined (Some 1);
              mkPromise VUndefined waiting VUndefined VUndefined None] [])
    (mkPromise VUndefined waiting (VClient 8) VUndefined (Some 1))
    eq_refl eq_refl)).
Defined.

(** X9.  The callback that a promisified function hands out works once:
    when a call of it has ended, any further call throws, "abandon ...
    twice" for a truthy [err] and "fulfill ... twice" otherwise, and
    changes nothing. *)
Theorem node_callback_fires_once
    client n k d this err data this' err' data' s s1 :
  final_state (call_fuel client (S (S n)) (node_callback d) this
                 [err; data] s) = Some s1 ->
  call_fuel client (S (S k)) (node_callback d) this' [err'; data'] s1 =
  Throws (VError (if truthy err'
                  then "Tried to abandon a promise twice."
                  else "Tried to fulfill a promise twice.")) s1.
Proof.
  intros Hfin.
  rewrite <- final_state_void, node_callback_fires in Hfin.
  assert (T : exists p1, heap s1 !! d = Some p1 /\ status p1 <> waiting).
  { destruct (truthy err).
    - eapply abandon_leaves_terminal; eauto.
    - eapply fulfill_leaves_terminal; eauto. }
  destruct T as (p1 & Hp1 & Hw).
  unfold node_callback.
  change (call_fuel client (S (S k)) (VFailableCb ?e ?c) this' [err'; data'])
    with (failable_cb (call_fuel client (S k)) e c err' data').
  unfold failable_cb, bind.
  destruct (truthy err').
  - change (call_fuel client (S k) (VBound Mreject d) VUndefined [err'])
      with (Deferred_reject (call_fuel client k) d err' ;; ret VUndefined).
    unfold bind, Deferred_reject. erewrite abandon_guard; eauto.
  - change (call_fuel client (S k) (VBound Mresolve d) VUndefined [data'])
      with (Deferred_resolve (call_fuel client k) d data' ;; ret VUndefined).
    unfold bind, Deferred_resolve. erewrite fulfill_guard; eauto.
Qed.

Lemma node_callback_fires_once_witness :
  final_state (call_fuel sample 2 (node_callback 0) VUndefined
     [VNull; VNum 42]
     (mkState [mkPromise VUndefined waiting VUndefined VUndefined None] []))
  = Some (mkState [mkPromise VUndefined resolved VUndefined VUndefined None]
                  []) /\
  call_fuel sample 2 (node_callback 0) VUndefined [VStr "fail"; VUndefined]
    (mkState [mkPromise VUndefined resolved VUndefined VUndefined None] []) =
  Throws (VError "Tried to abandon a promise twice.")
    (mkState [mkPromise VUndefined resolved VUndefined VUndefined None] []).
Proof.
  split; [reflexivity |].
  exact (node_callback_fires_once sample 0 0 0 VUndefined VNull (VNum 42)
           VUndefined (VStr "fail") VUndefined
           (mkState [mkPromise VUndefined waiting VUndefined VUndefined None] [])
           _ eq_refl).
Defined.

(** ** Chaining through a returned promise *)

(** [fulfill], when the callback returned a promise: the two calls on it. *)
Lemma fulfill_with_future call this data force s p v s1 p1 d :
  heap s !! this = Some p ->
  negb (strict_equal (status p) waiting) && negb force = false ->
  truthy (owed p) = true ->
  call (owed p) (VPromise this) [data]
       (mkState (<[this := set_status resolved p]> (heap s)) (calls s)) =
    Returns v s1 ->
  heap s1 !! this = Some p1 ->
  truthy v && truthy (get_then v) = true ->
  next p1 = Some d ->
  fulfill call this data force s =
  (call (get_then v) v [VBound Mresolve d] ;;
   q <- read this ;;
   match next q with
   | None => throw TypeError
   | Some d' =>
       call (get_catch (value q)) (value q) [VBound Mreject d'] ;; ret tt
   end) (mkState (<[this := set_value v p1]> (heap s1)) (calls s1)).
Proof.
  intros Hp Hg Ho Hc Hp1 Hv Hn.
  unfold fulfill. unfold bind at 1. unfold read at 1. rewrite Hp, Hg.
  unfold bind at 1. unfold write at 1. rewrite Hp.
  unfold bind at 1. unfold read at 1. simpl.
  rewrite (lookup_write _ _ _ _ Hp). simpl. rewrite Ho.
  unfold bind at 1. rewrite Hc.
  unfold bind at 1. unfold write at 1. rewrite Hp1.
  unfold bind at 1. unfold read at 1. simpl.
  rewrite (lookup_write _ _ _ _ Hp1). simpl. rewrite Hv, Hn. reflexivity.
Qed.

(** X7.  When the success callback returns a promise [x] that is waiting
    and has no callbacks yet, [fulfill] does not settle [next]: it
    registers [next]'s [resolve] as the success callback of [x] and
    [next]'s [reject] as its failure callback, which gives [x] a fresh
    [next] of its own, and every other promise is as the callback left
    it. *)
Theorem returned_promise_is_adopted
    client n this data force s p x s1 p1 d px :
  heap s !! this = Some p ->
  negb (strict_equal (status p) waiting) && negb force = false ->
  truthy (owed p) = true ->
  call_fuel client (S n) (owed p) (VPromise this) [data]
       (mkState (<[this := set_status resolved p]> (heap s)) (calls s)) =
    Returns (VPromise x) s1 ->
  heap s1 !! this = Some p1 ->
  next p1 = Some d ->
  heap s1 !! x = Some px ->
  x <> this ->
  status px = waiting ->
  truthy (owed px) = false ->
  truthy (onFail px) = false ->
  let adopted :=
    set_onFail (VBound Mreject d)
      (set_next (length (heap s1)) (set_owed (VBound Mresolve d) px)) in
  let final :=
    <[x := adopted]> (<[this := set_value (VPromise x) p1]> (heap s1))
    ++ [mkPromise VUndefined waiting VUndefined VUndefined None] in
  fulfill (call_fuel client (S n)) this data force s =
    Returns tt (mkState final (calls s1)) /\
  (forall r, r <> x -> r <> this -> r < length (heap s1) ->
     final !! r = heap s1 !! r).
Proof.
  intros Hp Hg Ho Hc Hp1 Hn Hx Hne Hw Hox Hfx adopted final.
  assert (Lthis : this < length (heap s1)) by (eapply lookup_lt_Some; eauto).
  assert (Lxlt : x < length (heap s1)) by (eapply lookup_lt_Some; eauto).
  split.
  - rewrite (fulfill_with_future (call_fuel client (S n)) this data force s p
               (VPromise x) s1 p1 d Hp Hg Ho Hc Hp1 eq_refl Hn).
    set (h := <[this := set_value (VPromise x) p1]> (heap s1)).
    assert (Hlen : length h = length (heap s1))
      by (unfold h; apply length_insert).
    assert (Hhx : h !! x = Some px)
      by (unfold h; rewrite list_lookup_insert_ne; auto).
    assert (Hht : h !! this = Some (set_value (VPromise x) p1))
      by (unfold h; eapply lookup_write; eauto).
    assert (R1 : strict_equal (status px) resolved = false)
      by (rewrite Hw; reflexivity).
    assert (R2 : strict_equal (status px) rejected = false)
      by (rewrite Hw; reflexivity).
    unfold bind at 1.
    change (call_fuel client (S n) (get_then (VPromise x)) (VPromise x)
              [VBound Mresolve d])
      with (then_ (call_fuel client n) x (VBound Mresolve d) VUndefined).
    rewrite (then_registers (call_fuel client n) x (VBound Mresolve d) VUndefined
               (mkState h (calls s1)) px Hhx Hox R1 eq_refl).
    simpl heap. simpl calls. rewrite Hlen.
    set (px1 := set_next (length (heap s1)) (set_owed (VBound Mresolve d) px)).
    set (fresh := mkPromise VUndefined waiting VUndefined VUndefined None).
    assert (Hx1 : (<[x := px1]> h ++ [fresh]) !! x = Some px1).
    { rewrite lookup_app_l by (rewrite length_insert; lia).
      eapply lookup_write; eauto. }
    assert (Ht1 : (<[x := px1]> h ++ [fresh]) !! this =
                  Some (set_value (VPromise x) p1)).
    { rewrite lookup_app_l by (rewrite length_insert; lia).
      rewrite list_lookup_insert_ne; auto. }
    unfold bind at 1. unfold read at 1. simpl heap. rewrite Ht1.
    change (next (set_value (VPromise x) p1)) with (next p1).
    change (value (set_value (VPromise x) p1)) with (VPromise x).
    rewrite Hn.
    change (call_fuel client (S n) (get_catch (VPromise x)) (VPromise x)
              [VBound Mreject d])
      with (catch (call_fuel client n) x (VBound Mreject d) ;; ret VUndefined).
    unfold bind.
    rewrite (catch_registers _ x _ (mkState (<[x := px1]> h ++ [fresh]) (calls s1))
               px1 Hx1 Hfx R2).
    simpl. unfold ret, final, adopted. fold px1. fold h. fold fresh.
    rewrite insert_app_l by (rewrite length_insert; lia).
    now rewrite insert_twice.
  - intros r Hr1 Hr2 Hlt. unfold final.
    rewrite lookup_app_l by (rewrite !length_insert; lia).
    rewrite !list_lookup_insert_ne; auto.
Qed.

Lemma returned_promise_is_adopted_witness :
  fulfill (call_fuel sample 2) 0 VUndefined false
    (mkState
       [ mkPromise VUndefined waiting (VClient 7) VUndefined (Some 1);
         mkPromise VUndefined waiting (VClient 0) VUndefined (Some 2);
         mkPromise VUndefined waiting VUndefined VUndefined None ] []) =
  Returns tt
    (mkState
       [ mkPromise (VPromise 3) resolved (VClient 7) VUndefined (Some 1);
         mkPromise VUndefined waiting (VClient 0) VUndefined (Some 2);
         mkPromise VUndefined waiting VUndefined VUndefined None;
         mkPromise VUndefined waiting (VBound Mresolve 1) (VBound Mreject 1)
                   (Some 4);
         mkPromise VUndefined waiting VUndefined VUndefined None ]
       [ Invoked 7 (VPromise 0) [VUndefined] ]).
Proof.
  exact (proj1
    (returned_promise_is_adopted sample 1 0 VUndefined false
       (mkState
          [ mkPromise VUndefined waiting (VClient 7) VUndefined (Some 1);
            mkPromise VUndefined waiting (VClient 0) VUndefined (Some 2);
            mkPromise VUndefined waiting VUndefined VUndefined None ] [])
       (mkPromise VUndefined waiting (VClient 7) VUndefined (Some 1))
       3 _
       (mkPromise VUndefined resolved (VClient 7) VUndefined (Some 1))
       1
       (mkPromise VUndefined waiting VUndefined VUndefined None)
       eq_refl eq_refl eq_refl eq_refl eq_refl eq_refl eq_refl
       (fun E => match E in _ = y return
                   match y with 0 => False | _ => True end
                 with eq_refl => I end)
       eq_refl eq_refl eq_refl)).
Defined.

(** [fulfill] past its guard, with a success callback: the call and what
    follows it. *)
Lemma fulfill_calls_back call this data force s p :
  heap s !! this = Some p ->
  negb (strict_equal (status p) waiting) && negb force = false ->
  truthy (owed p) = true ->
  fulfill call this data force s =
  (v <- call (owed p) (VPromise this) [data] ;;
   write this (set_value v) ;;
   q <- read this ;;
   if truthy (value q) && truthy (get_then (value q))
   then
     match next q with
     | None => throw TypeError
     | Some d =>
         call (get_then (value q)) (value q) [VBound Mresolve d] ;;
         q <- read this ;;
         match next q with
         | None => throw TypeError
         | Some d =>
             call (get_catch (value q)) (value q) [VBound Mreject d] ;;
             ret tt
         end
     end
   else ret tt)
    (mkState (<[this := set_status resolved p]> (heap s)) (calls s)).
Proof.
  intros Hp Hg Ho.
  unfold fulfill. unfold bind at 1. unfold read at 1. rewrite Hp, Hg.
  unfold bind at 1. unfold write at 1. rewrite Hp.
  unfold bind at 1. unfold read at 1. simpl.
  rewrite (lookup_write _ _ _ _ Hp). simpl. now rewrite Ho.
Qed.

(** X6.  An adopted promise passes its settlement on: for a waiting
    promise [x] whose callbacks are the [resolve] and [reject] of the
    deferred of [d], as [fulfill] installs them, [resolve(v)] on [x]
    resolves [d] with the same [v] and then records [undefined], the
    result of that call, as the value of [x]; [reject(v)] stores [v] in
    [x] and rejects [d] with the same [v]. *)
Theorem adopted_promise_passes_settlement client n x d v s px :
  heap s !! x = Some px ->
  status px = waiting ->
  owed px = VBound Mresolve d ->
  onFail px = VBound Mreject d ->
  Deferred_resolve (call_fuel client (S n)) x v s =
    (Deferred_resolve (call_fuel client n) d v ;;
     write x (set_value VUndefined))
      (mkState (<[x := set_status resolved px]> (heap s)) (calls s)) /\
  Deferred_reject (call_fuel client (S n)) x v s =
    Deferred_reject (call_fuel client n) d v
      (mkState (<[x := set_value v (set_status rejected px)]> (heap s))
               (calls s)).
Proof.
  intros Hx Hw Ho Hf. split.
  - unfold Deferred_resolve at 1.
    rewrite (fulfill_calls_back (call_fuel client (S n)) x v false s px Hx);
      [| rewrite Hw; reflexivity | rewrite Ho; reflexivity].
    rewrite Ho.
    change (call_fuel client (S n) (VBound Mresolve d) (VPromise x) [v])
      with (Deferred_resolve (call_fuel client n) d v ;; ret VUndefined).
    unfold bind.
    destruct (Deferred_resolve (call_fuel client n) d v _) as [[] s2 | | |];
      try reflexivity.
    unfold ret, write, read.
    destruct (heap s2 !! x) as [q |] eqn:Hq; [| reflexivity].
    simpl. now rewrite (lookup_write _ _ _ _ Hq).
  - unfold Deferred_reject at 1. destruct s as [h cs]. simpl in Hx.
    rewrite (abandon_handled (call_fuel client (S n)) h cs x px v Hx);
      [| rewrite Hw; reflexivity | rewrite Hf; reflexivity].
    rewrite Hf.
    change (call_fuel client (S n) (VBound Mreject d) (VPromise x) [v])
      with (Deferred_reject (call_fuel client n) d v ;; ret VUndefined).
    rewrite bind_ret_void. apply void_unit.
Qed.

Lemma adopted_promise_passes_settlement_witness :
  Deferred_resolve (call_fuel sample 2) 3 (VNum 9)
    (mkState
       [ mkPromise (VPromise 3) resolved (VClient 7) VUndefined (Some 1);
         mkPromise VUndefined waiting (VClient 0) VUndefined (Some 2);
         mkPromise VUndefined waiting VUndefined VUndefined None;
         mkPromise VUndefined waiting (VBound Mresolve 1) (VBound Mreject 1)
                   (Some 4);
         mkPromise VUndefined waiting VUndefined VUndefined None ]
       [ Invoked 7 (VPromise 0) [VUndefined] ]) =
  Returns tt
    (mkState
       [ mkPromise (VPromise 3) resolved (VClient 7) VUndefined (Some 1);
         mkPromise (VNum 9) resolved (VClient 0) VUndefined (Some 2);
         mkPromise VUndefined waiting VUndefined VUndefined None;
         mkPromise VUndefined resolved (VBound Mresolve 1) (VBound Mreject 1)
                   (Some 4);
         mkPromise VUndefined waiting VUndefined VUndefined None ]
       [ Invoked 7 (VPromise 0) [VUndefined];
         Invoked 0 (VPromise 1) [VNum 9] ]).
Proof.
  refine (eq_trans (proj1
    (adopted_promise_passes_settlement sample 1 3 1 (VNum 9)
       (mkState
          [ mkPromise (VPromise 3) resolved (VClient 7) VUndefined (Some 1);
            mkPromise VUndefined waiting (VClient 0) VUndefined (Some 2);
            mkPromise VUndefined waiting VUndefined VUndefined None;
            mkPromise VUndefined waiting (VBound Mresolve 1) (VBound Mreject 1)
                      (Some 4);
            mkPromise VUndefined waiting VUndefined VUndefined None ]
          [ Invoked 7 (VPromise 0) [VUndefined] ])
       (mkPromise VUndefined waiting (VBound Mresolve 1) (VBound Mreject 1)
                  (Some 4))
       eq_refl eq_refl eq_refl eq_refl)) _).
  reflexivity.
Defined.

(** ** [then] with two callbacks *)

Lemma bind_read {B} r (k : Promise -> M B) s p :
  heap s !! r = Some p -> bind (read r) k s = k p s.
Proof. intros H. unfold bind, read. now rewrite H. Qed.

Lemma bind_write {B} r f (k : unit -> M B) s p :
  heap s !! r = Some p ->
  bind (write r f) k s = k tt (mkState (<[r := f p]> (heap s)) (calls s)).
Proof. intros H. unfold bind, write. now rewrite H. Qed.

Lemma bind_alloc {B} q (k : ref -> M B) s :
  bind (alloc q) k s =
  k (length (heap s)) (mkState (heap s ++ [q]) (calls s)).
Proof. reflexivity. Qed.

Lemma bind_at {A B} (m m' : M A) (k : A -> M B) s s' :
  m s = m' s' -> bind m k s = bind m' k s'.
Proof. unfold bind. now intros ->. Qed.

(** [then] past its guard: the registration, and what follows it. *)
Lemma then_registers_first call r success failure s p :
  heap s !! r = Some p -> truthy (owed p) = false ->
  then_ call r success failure s =
  (when (strict_equal (status p) resolved) (fulfill call r (value p) true) ;;
   when (truthy failure) (catch call r failure) ;;
   q <- read r ;;
   match next q with
   | Some d => ret (VPromise d)
   | None => throw TypeError
   end)
    (mkState (<[r := set_next (length (heap s)) (set_owed success p)]> (heap s)
              ++ [mkPromise VUndefined waiting VUndefined VUndefined None])
             (calls s)).
Proof.
  intros Hp Ho.
  assert (Hlt : r < length (heap s)) by (eapply lookup_lt_Some; eauto).
  unfold then_, defer, Promise_new.
  rewrite (bind_read _ _ _ _ Hp), Ho.
  rewrite (bind_write _ _ _ _ _ Hp), bind_alloc. simpl heap. simpl calls.
  erewrite bind_write
    by (simpl; rewrite lookup_app_l by (rewrite length_insert; auto);
        eapply lookup_write; eauto).
  simpl heap. simpl calls. rewrite length_insert.
  rewrite (insert_app_fresh _ _ (set_owed success p)), insert_twice
    by (eapply lookup_write; eauto).
  erewrite bind_read
    by (simpl; rewrite lookup_app_l by (rewrite length_insert; auto);
        eapply lookup_write; eauto).
  reflexivity.
Qed.

(** X5.  [then(success, failure)] with two functions is [then(success)]
    followed by [catch(failure)]: same effects in the same order, same
    exceptions, and the promise returned is the one [then(success)]
    returns. *)
Theorem then_with_failure_is_then_catch client n r success failure s :
  truthy success = true ->
  truthy failure = true ->
  then_ (call_fuel client n) r success failure s =
  (q <- then_ (call_fuel client n) r success VUndefined ;;
   catch (call_fuel client n) r failure ;;
   ret q) s.
Proof.
  intros Hs Hf.
  pose proof (call_fuel_linked client n) as K.
  destruct (heap s !! r) as [p |] eqn:Hp.
  2: { unfold then_, bind, read. now rewrite Hp. }
  destruct (truthy (owed p)) eqn:O.
  { unfold then_, bind, read. now rewrite Hp, O. }
  assert (Hlt : r < length (heap s)) by (eapply lookup_lt_Some; eauto).
  rewrite (then_registers_first _ r success failure s p Hp O).
  rewrite (bind_at _ _ _ _ _
             (then_registers_first _ r success VUndefined s p Hp O)).
  set (p1 := set_next (length (heap s)) (set_owed success p)).
  set (s1 := mkState _ (calls s)).
  assert (L1 : heap s1 !! r = Some p1).
  { unfold s1. simpl. rewrite lookup_app_l by (rewrite length_insert; auto).
    eapply lookup_write; eauto. }
  assert (W : wp (when (strict_equal (status p) resolved)
                    (fulfill (call_fuel client n) r (value p) true)) s1
                 (fun _ s' => linked s1 s') (fun _ s' => linked s1 s')).
  { apply (preserves_when linked linked_refl), fulfill_linked, K. }
  rewrite Hf. simpl (truthy VUndefined).
  unfold wp in W. unfold bind.
  destruct (when (strict_equal (status p) resolved)
              (fulfill (call_fuel client n) r (value p) true) s1)
    as [[] s2 | e s2 | |]; try reflexivity.
  destruct (W r p1 L1) as (p2 & Hp2 & L2).
  destruct (L2 Hs) as [O2 N2].
  unfold when, ret, read. rewrite Hp2, N2. simpl (next p1).
  pose proof (catch_linked _ K r failure s2) as C. unfold wp in C.
  cbv beta.
  destruct (catch (call_fuel client n) r failure s2)
    as [[] s3 | e s3 | |] eqn:EC; rewrite ?EC; try reflexivity.
  destruct (C r p2 Hp2) as (p3 & Hp3 & L3).
  assert (T2 : truthy (owed p2) = true) by (rewrite O2; exact Hs).
  destruct (L3 T2) as [O3 N3].
  now rewrite Hp3, N3, N2.
Qed.

Lemma then_with_failure_is_then_catch_witness :
  then_ (call_fuel sample 2) 0 (VClient 0) (VClient 3)
    (mkState [mkPromise (VStr "boom") rejected VUndefined VUndefined None] [])
  = Returns (VPromise 1)
      (mkState
         [ mkPromise (VStr "boom") rejected (VClient 0) (VClient 3) (Some 1);
           mkPromise VUndefined waiting VUndefined VUndefined None ]
         [ Invoked 3 (VPromise 0) [VStr "boom"] ]).
Proof.
  refine (eq_trans
    (then_with_failure_is_then_catch sample 2 0 (VClient 0) (VClient 3)
       (mkState [mkPromise (VStr "boom") rejected VUndefined VUndefined None]
                [])
       eq_refl eq_refl) _).
  reflexivity.
Defined.

(** ** [catch] on a promise already rejected *)

(** X10.  [catch] with a function on a promise that is already rejected
    and has no failure callback stores the function and calls it at once
    with the value the promise holds; status and value are written again
    as they were, so the call starts in the state with only the callback
    added, and [catch] ends as that call ends. *)
Theorem late_catch_calls_handler call r failure s p :
  heap s !! r = Some p ->
  status p = rejected ->
  truthy (onFail p) = false ->
  truthy failure = true ->
  catch call r failure s =
  void (call failure (VPromise r) [value p]
          (mkState (<[r := set_onFail failure p]> (heap s)) (calls s))).
Proof.
  intros Hp Hst Hf Ht.
  assert (E1 : set_status rejected (set_onFail failure p) =
               set_onFail failure p).
  { unfold set_status, set_onFail. simpl. now rewrite <- Hst. }
  assert (E2 : set_value (value p) (set_onFail failure p) =
               set_onFail failure p) by reflexivity.
  unfold catch.
  rewrite (bind_read _ _ _ _ Hp), Hf.
  rewrite (bind_write _ _ _ _ _ Hp).
  erewrite bind_read by (simpl; eapply lookup_write; eauto).
  change (status (set_onFail failure p)) with (status p).
  change (value (set_onFail failure p)) with (value p).
  rewrite Hst. simpl (strict_equal rejected rejected). cbv iota.
  unfold abandon.
  erewrite bind_read by (simpl; eapply lookup_write; eauto).
  simpl (negb true). rewrite andb_false_r.
  erewrite bind_write by (simpl; eapply lookup_write; eauto).
  simpl heap. simpl calls. rewrite insert_twice, E1.
  erewrite bind_read by (simpl; eapply lookup_write; eauto).
  change (onFail (set_onFail failure p)) with failure. rewrite Ht.
  erewrite bind_write by (simpl; eapply lookup_write; eauto).
  simpl heap. simpl calls. rewrite insert_twice, E2.
  erewrite bind_read by (simpl; eapply lookup_write; eauto).
  change (onFail (set_onFail failure p)) with failure.
  apply bind_ret_tt.
Qed.

Lemma late_catch_calls_handler_witness :
  catch (call_fuel sample 1) 0 (VClient 3)
    (mkState [mkPromise (VStr "boom") rejected VUndefined VUndefined None] [])
  = Returns tt
      (mkState [mkPromise (VStr "boom") rejected VUndefined (VClient 3) None]
               [Invoked 3 (VPromise 0) [VStr "boom"]]).
Proof.
  refine (eq_trans
    (late_catch_calls_handler (call_fuel sample 1) 0 (VClient 3)
       (mkState [mkPromise (VStr "boom") rejected VUndefined VUndefined None]
                [])
       (mkPromise (VStr "boom") rejected VUndefined VUndefined None)
       eq_refl eq_refl eq_refl eq_refl) _).
  reflexivity.
Defined.

(** ** Exceptions of callbacks *)

(** X8.  The library does not isolate callbacks: when the call of the
    success callback of a waiting promise throws, whatever the callback is
    and whatever it did before, [resolve] throws the same value to its
    caller and leaves the state as the callback left it; the callback was
    called with the promise already resolved and nothing else changed.
    Likewise [reject], when the call of the failure callback throws: the
    callback was called with the promise rejected and the error stored as
    its value. *)
Theorem callback_exception_reaches_producer call r v s p e s2 :
  heap s !! r = Some p ->
  status p = waiting ->
  (truthy (owed p) = true ->
   call (owed p) (VPromise r) [v]
        (mkState (<[r := set_status resolved p]> (heap s)) (calls s)) =
     Throws e s2 ->
   Deferred_resolve call r v s = Throws e s2) /\
  (truthy (onFail p) = true ->
   call (onFail p) (VPromise r) [v]
        (mkState (<[r := set_value v (set_status rejected p)]> (heap s))
                 (calls s)) =
     Throws e s2 ->
   Deferred_reject call r v s = Throws e s2).
Proof.
  intros Hp Hw.
  assert (G : negb (strict_equal (status p) waiting) && negb false = false)
    by (rewrite Hw; reflexivity).
  split; intros Ht Hc.
  - unfold Deferred_resolve.
    rewrite (fulfill_calls_back call r v false s p Hp G Ht).
    unfold bind. now rewrite Hc.
  - unfold Deferred_reject. destruct s as [h cs]. simpl in *.
    rewrite (abandon_handled call h cs r p v Hp); auto.
    + now rewrite Hc.
    + rewrite Hw. reflexivity.
Qed.

Lemma callback_exception_reaches_producer_witness :
  call_fuel sample_throwing 2 (VClient 9) (VPromise 0) [VNum 1]
    (mkState [mkPromise VUndefined resolved (VClient 9) VUndefined (Some 1);
              mkPromise VUndefined waiting VUndefined VUndefined None] []) =
  Throws (VStr "oops")
    (mkState [mkPromise VUndefined resolved (VClient 9) VUndefined (Some 1);
              mkPromise VUndefined waiting VUndefined VUndefined None;
              mkPromise VUndefined waiting VUndefined VUndefined None]
             [Invoked 9 (VPromise 0) [VNum 1]]) /\
  Deferred_resolve (call_fuel sample_throwing 2) 0 (VNum 1)
    (mkState [mkPromise VUndefined waiting (VClient 9) VUndefined (Some 1);
              mkPromise VUndefined waiting VUndefined VUndefined None] []) =
  Throws (VStr "oops")
    (mkState [mkPromise VUndefined resolved (VClient 9) VUndefined (Some 1);
              mkPromise VUndefined waiting VUndefined VUndefined None;
              mkPromise VUndefined waiting VUndefined VUndefined None]
             [Invoked 9 (VPromise 0) [VNum 1]]).
Proof.
  split; [reflexivity |].
  exact (proj1 (callback_exception_reaches_producer
    (call_fuel sample_throwing 2) 0 (VNum 1)
    (mkState [mkPromise VUndefined waiting (VClient 9) VUndefined (Some 1);
              mkPromise VUndefined waiting VUndefined VUndefined None] [])
    (mkPromise VUndefined waiting (VClient 9) VUndefined (Some 1))
    (VStr "oops") _ eq_refl eq_refl) eq_refl eq_refl).
Defined.

(** ** The callback adapter, observed *)

(** Where the claim about the adapter fails on the code.  A node-style
    function that throws: the promisified function throws too and returns
    no promise.  A node-style function that calls back at once with
    [(null, 42)]: the promise comes back resolved, but a continuation
    registered on it afterwards is called with [undefined], not 42. *)
Lemma promisified_function_counterexample :
  call_fuel sample_throwing 3 (VPromisified (VClient 8) VNull) VUndefined []
    empty =
  Throws (VStr "oops")
    (mkState [mkPromise VUndefined waiting VUndefined VUndefined None]
             [Invoked 8 VNull [node_callback 0]]) /\
  run (call_fuel sample 6)
    (Invoke (VPromisified (VClient 4) VNull) VUndefined [] (fun q =>
     Invoke (get_then q) q [VClient 0] (fun _ => Ret q))) empty =
  Returns (VPromise 0)
    (mkState
       [ mkPromise VUndefined resolved (VClient 0) VUndefined (Some 1);
         mkPromise VUndefined waiting VUndefined VUndefined None ]
       [ Invoked 4 VNull [node_callback 0];
         Invoked 0 (VPromise 0) [VUndefined] ]).
Proof. split; reflexivity. Qed.

(** C5, as the code has it.  [promisify(fn, context)] returns a function;
    calling it with [args] allocates a waiting promise [d], calls [fn]
    with receiver [context] and [args] followed by one callback, and
    returns [d] once that call has returned, whether or not the callback
    was called by then; what [fn] throws is thrown on.  When the callback
    is called with [(err, data)] while [d] is still waiting: for a truthy
    [err] and a failure callback registered on [d], the promise is marked
    rejected, [err] is stored and that callback is called with [err]; for
    a falsy [err] and a success callback registered on [d], the promise is
    marked resolved and that callback is called with [data], its result
    then handled as [fulfill] does; and in every case the call leaves [d]
    rejected for a truthy [err] and resolved otherwise. *)
Theorem promisified_function_settles
    client n nodeStyle context this args s this' err data s2 p :
  heap s2 !! length (heap s) = Some p ->
  status p = waiting ->
  call_fuel client (S n) (VFun Fpromisify) this [nodeStyle; context] s =
    Returns (VPromisified nodeStyle context) s /\
  call_fuel client (S n) (VPromisified nodeStyle context) this args s =
    (call_fuel client n nodeStyle context
       (args ++ [node_callback (length (heap s))]) ;;
     ret (VPromise (length (heap s)))) (deferred_in s) /\
  heap (deferred_in s) !! length (heap s) =
    Some (mkPromise VUndefined waiting VUndefined VUndefined None) /\
  (truthy err = true -> truthy (onFail p) = true ->
   void (call_fuel client (S (S n)) (node_callback (length (heap s)))
           this' [err; data] s2) =
   void (call_fuel client n (onFail p) (VPromise (length (heap s))) [err]
           (mkState (<[length (heap s) :=
                        set_value err (set_status rejected p)]> (heap s2))
                    (calls s2)))) /\
  (truthy err = false -> truthy (owed p) = true ->
   void (call_fuel client (S (S n)) (node_callback (length (heap s)))
           this' [err; data] s2) =
   (v <- call_fuel client n (owed p) (VPromise (length (heap s))) [data] ;;
    write (length (heap s)) (set_value v) ;;
    q <- read (length (heap s)) ;;
    if truthy (value q) && truthy (get_then (value q))
    then
      match next q with
      | None => throw TypeError
      | Some d =>
          call_fuel client n (get_then (value q)) (value q)
                    [VBound Mresolve d] ;;
          q <- read (length (heap s)) ;;
          match next q with
          | None => throw TypeError
          | Some d =>
              call_fuel client n (get_catch (value q)) (value q)
                        [VBound Mreject d] ;;
              ret tt
          end
      end
    else ret tt)
     (mkState (<[length (heap s) := set_status resolved p]> (heap s2))
              (calls s2))) /\
  (forall s3,
     final_state (call_fuel client (S (S n)) (node_callback (length (heap s)))
                    this' [err; data] s2) = Some s3 ->
     exists p3, heap s3 !! length (heap s) = Some p3 /\
                status p3 = if truthy err then rejected else resolved).
Proof.
  intros Hp Hw.
  assert (G : negb (strict_equal (status p) waiting) && negb false = false)
    by (rewrite Hw; reflexivity).
  destruct (promisified_function client n nodeStyle context this args s)
    as (A & B & C & _ & _ & F).
  split; [exact A | split; [exact B | split; [exact C |]]].
  split; [| split].
  - intros He Ht. rewrite node_callback_fires, He.
    unfold Deferred_reject. destruct s2 as [h2 c2]. simpl in *.
    apply abandon_handled; auto. rewrite Hw. reflexivity.
  - intros He Ht. rewrite node_callback_fires, He.
    unfold Deferred_resolve. now apply fulfill_calls_back.
  - intros s3 Hfin. exact (F this' err data s2 s3 p Hp Hw Hfin).
Qed.

Lemma promisified_function_settles_witness :
  heap (mkState
          [ mkPromise VUndefined waiting (VClient 0) VUndefined (Some 1);
            mkPromise VUndefined waiting VUndefined VUndefined None ]
          [ Invoked 6 VNull [VStr "path"; node_callback 0] ]) !! 0 =
    Some (mkPromise VUndefined waiting (VClient 0) VUndefined (Some 1)) /\
  void (call_fuel sample 3 (node_callback 0) VUndefined [VNull; VNum 42]
          (mkState
             [ mkPromise VUndefined waiting (VClient 0) VUndefined (Some 1);
               mkPromise VUndefined waiting VUndefined VUndefined None ]
             [ Invoked 6 VNull [VStr "path"; node_callback 0] ])) =
  Returns tt
    (mkState
       [ mkPromise (VNum 42) resolved (VClient 0) VUndefined (Some 1);
         mkPromise VUndefined waiting VUndefined VUndefined None ]
       [ Invoked 6 VNull [VStr "path"; node_callback 0];
         Invoked 0 (VPromise 0) [VNum 42] ]).
Proof.
  split; [reflexivity |].
  refine (eq_trans
    (proj1 (proj2 (proj2 (proj2 (proj2
      (promisified_function_settles sample 1 (VClient 6) VNull VUndefined
         [VStr "path"] empty VUndefined VNull (VNum 42)
         (mkState
            [ mkPromise VUndefined waiting (VClient 0) VUndefined (Some 1);
              mkPromise VUndefined waiting VUndefined VUndefined None ]
            [ Invoked 6 VNull [VStr "path"; node_callback 0] ])
         (mkPromise VUndefined waiting (VClient 0) VUndefined (Some 1))
         eq_refl eq_refl))))) eq_refl eq_refl) _).
  reflexivity.
Defined.
